(** * Ptree Loader: include resolution over Boost.PropertyTree

    A shallow embedding of [src/PtreeLoader/PtreeLoader.h]: the class
    [PtreeLoader<T>] with its public [Load(fsPath)], the private recursive
    [Load(fsPath, fsParentPath)], [Reader] and [DumpDiag].

    The loader is stateful ([root], [diagnostic], [depth]); the embedding
    threads the three members through every call as a record.  What the
    class asks of [std::filesystem] and of the Boost parsers is gathered in
    the record [Env]; the functions of the embedding take it as an argument,
    so every theorem holds for every file system and every parser. *)

From Stdlib Require Import String Ascii List ZArith Lia Bool DecimalString.
Import ListNotations.

Local Open Scope string_scope.
Local Open Scope list_scope.
Local Open Scope Z_scope.

(* ===================================================================== *)
(** ** boost::property_tree::ptree *)
(* ===================================================================== *)

(** A [bpt::ptree] node: its own data string and the ordered sequence of
    its (key, subtree) children.  Keys may repeat. *)
#[warnings="-register-all"]
Inductive ptree : Type :=
| Node (d : string) (cs : list (string * ptree)).

Definition data (t : ptree) : string :=
  match t with Node d _ => d end.

Definition children (t : ptree) : list (string * ptree) :=
  match t with Node _ cs => cs end.

(** A default-constructed [bpt::ptree]. *)
Definition empty_ptree : ptree := Node "" [].

(** Induction over trees that reaches the subtrees held in the child
    sequence. *)
Section TreeInduction.

Variable P : ptree -> Prop.
Hypothesis P_node :
  forall d cs, Forall (fun kv => P (snd kv)) cs -> P (Node d cs).

Fixpoint ptree_rect' (t : ptree) : P t :=
  match t with
  | Node d cs =>
      P_node d cs
        ((fix all (l : list (string * ptree))
            : Forall (fun kv => P (snd kv)) l :=
            match l with
            | [] => Forall_nil _
            | kv :: r => Forall_cons kv (ptree_rect' (snd kv)) (all r)
            end) cs)
  end.

End TreeInduction.

(** [basic_ptree::push_back]: a new last child, whatever the key. *)
Definition push_back (k : string) (v : ptree) (t : ptree) : ptree :=
  Node (data t) (children t ++ [(k, v)]).

(** [string_path]: [add_child] takes a path, and the implicit conversion
    from [std::string] builds it with the default separator ['.'].
    [fragments s] is the sequence of keys that successive [reduce()] calls
    return: [s] cut at every separator, so never empty. *)
Definition separator : ascii := ".".

Fixpoint fragments (s : string) : list string :=
  match s with
  | EmptyString => [EmptyString]
  | String c s' =>
      if Ascii.eqb c separator then EmptyString :: fragments s'
      else match fragments s' with
           | f :: fs => String c f :: fs
           | [] => [String c EmptyString]
           end
  end.

(** [basic_ptree::find] followed by an update of the child it returns;
    [None] stands for [not_found()].  Among several children with the key
    [k] the library's index yields the one inserted first; in a tree built
    by [push_back] alone that is the first one in sequence order. *)
Fixpoint modify_first (k : string) (g : ptree -> ptree)
         (cs : list (string * ptree)) : option (list (string * ptree)) :=
  match cs with
  | [] => None
  | (k', c) :: cs' =>
      if String.eqb k' k then Some ((k', g c) :: cs')
      else match modify_first k g cs' with
           | Some r => Some ((k', c) :: r)
           | None => None
           end
  end.

(** [force_path] and the final [push_back] of [add_child], on the fragments
    of the path.  While more than one fragment is left, walk into the child
    [find] returns, or into a fresh empty child pushed at the back; the last
    fragment is the key under which the value is pushed.  (The library's
    [BOOST_ASSERT]s are the release build's: they do nothing.) *)
Fixpoint add_at (frags : list string) (v : ptree) (t : ptree) {struct frags}
  : ptree :=
  match frags with
  | [] => t
  | f :: rest =>
      match rest with
      | [] => push_back f v t
      | _ :: _ =>
          match modify_first f (add_at rest v) (children t) with
          | Some cs' => Node (data t) cs'
          | None => push_back f (add_at rest v empty_ptree) t
          end
      end
  end.

(** [basic_ptree::add_child(path, value)]. *)
Definition add_child (k : string) (v : ptree) (t : ptree) : ptree :=
  add_at (fragments k) v t.

(** [extends t t']: [t'] is [t] with more children, here or below.  Same
    data at every node of [t]; the children of [t] are, in order and under
    the same keys, a prefix of those of [t'], each extended in turn. *)
Fixpoint extends (t t' : ptree) {struct t} : Prop :=
  match t, t' with
  | Node d cs, Node d' cs' =>
      d = d' /\
      (fix go (l l' : list (string * ptree)) {struct l} : Prop :=
         match l, l' with
         | [], _ => True
         | (k, c) :: r, (k', c') :: r' => k = k' /\ extends c c' /\ go r r'
         | _ :: _, [] => False
         end) cs cs'
  end.

(** The same relation on two child sequences. *)
Fixpoint extends_children (l l' : list (string * ptree)) {struct l} : Prop :=
  match l, l' with
  | [], _ => True
  | (k, c) :: r, (k', c') :: r' =>
      k = k' /\ extends c c' /\ extends_children r r'
  | _ :: _, [] => False
  end.

(** [located frags v t]: following the keys [frags] from [t] leads to a node
    that extends [v]. *)
Fixpoint located (frags : list string) (v : ptree) (t : ptree) {struct frags}
  : Prop :=
  match frags with
  | [] => extends v t
  | f :: rest => exists c, In (f, c) (children t) /\ located rest v c
  end.

(* ===================================================================== *)
(** ** What the loader asks of its environment *)
(* ===================================================================== *)

(** A [std::filesystem] query without [error_code] argument either returns
    or throws [filesystem_error]. *)
Inductive fs_result (A : Type) : Type :=
| FsOk (a : A)
| FsError (what : string).
Arguments FsOk {A} a.
Arguments FsError {A} what.

(** A Boost parser either fills the tree it is given or throws a
    [std::exception] ([file_parser_error]) whose [what()] is kept. *)
Inductive read_result : Type :=
| ReadOk (pt : ptree)
| ReadError (what : string).

(** Paths are their strings ([fs::path] converts from and to
    [std::string]).  [path_append] is [operator/]. *)
Record Env : Type := {
  is_absolute : string -> bool;
  path_append : string -> string -> string;
  parent_path : string -> string;
  current_path : fs_result string;
  weakly_canonical : string -> fs_result string;
  fs_exists : string -> fs_result bool;
  read_xml : string -> read_result;
  read_json : string -> read_result;
  read_info : string -> read_result
}.

Inductive PtreeFileFormat : Type := xml | json | info.

(** The three specialisations generated by [PTREE_PARSER]. *)
Definition Reader (E : Env) (T : PtreeFileFormat) (fname : string)
  : read_result :=
  match T with
  | xml => read_xml E fname
  | json => read_json E fname
  | info => read_info E fname
  end.

(* ===================================================================== *)
(** ** The loader *)
(* ===================================================================== *)

Definition includeKey : string := "IncludeFile".
Definition depthLimit : Z := 20.

(** The data members.  [diagnostic] holds the lines streamed so far, one
    element per [diagnostic << ... << '\n'] statement, without the newline;
    [diagnostic_str] is the text of the stream.  [depth] is a C++ [int]
    counted here in [Z]: a session would need more than two thousand
    million resolution steps to leave the range of [int]. *)
Record PtreeLoader : Type := {
  root : ptree;
  diagnostic : list string;
  depth : Z
}.

Definition set_depth (n : Z) (st : PtreeLoader) : PtreeLoader :=
  {| root := root st; diagnostic := diagnostic st; depth := n |}.

Definition set_root (t : ptree) (st : PtreeLoader) : PtreeLoader :=
  {| root := t; diagnostic := diagnostic st; depth := depth st |}.

Definition log (line : string) (st : PtreeLoader) : PtreeLoader :=
  {| root := root st; diagnostic := diagnostic st ++ [line];
     depth := depth st |}.

Definition loop_line : string :=
  "Recursive include loop depected. Exiting...".
Definition not_found_line (p : string) : string :=
  ("Path not found: " ++ p)%string.
Definition loading_line (p : string) : string :=
  ("Loading: " ++ p)%string.
Definition error_line (what : string) : string :=
  ("Error: " ++ what)%string.

(** How a call ends: it returns, or an exception leaves it, or the model
    ran out of fuel (never, see [Load_rec_total]). *)
Inductive outcome : Type :=
| Returned (st : PtreeLoader)
| Raised (what : string) (st : PtreeLoader)
| OutOfFuel.

(** The effective path of lines 112-113, before canonicalisation. *)
Definition joined (E : Env) (fsPath fsParentPath : string) : string :=
  if is_absolute E fsPath then fsPath else path_append E fsParentPath fsPath.

(** The [for] loop of lines 137-147 over the children of the parsed file;
    [load p] is the nested call [Load(p, fsEffectivePath.parent_path())]. *)
Fixpoint merge_children (load : string -> PtreeLoader -> outcome)
         (kvs : list (string * ptree)) (st : PtreeLoader) : outcome :=
  match kvs with
  | [] => Returned st
  | (k, v) :: rest =>
      let st1 := set_root (add_child k v (root st)) st in
      if String.eqb k includeKey then
        match load (data v) st1 with
        | Returned st2 => merge_children load rest st2
        | o => o
        end
      else merge_children load rest st1
  end.

(** [Load(fsPath, fsParentPath)], lines 104-148.  [fuel] bounds the nesting
    of calls. *)
Fixpoint Load_rec (E : Env) (T : PtreeFileFormat) (fuel : nat)
         (fsPath fsParentPath : string) (st : PtreeLoader) : outcome :=
  match fuel with
  | O => OutOfFuel
  | S fuel' =>
      let st1 := set_depth (depth st + 1) st in
      if depth st1 >? depthLimit then Returned (log loop_line st1)
      else
        match weakly_canonical E (joined E fsPath fsParentPath) with
        | FsError what => Raised what st1
        | FsOk fsEffectivePath =>
            match fs_exists E fsEffectivePath with
            | FsError what => Raised what st1
            | FsOk false =>
                Returned (log (not_found_line fsEffectivePath) st1)
            | FsOk true =>
                let st2 := log (loading_line fsEffectivePath) st1 in
                match Reader E T fsEffectivePath with
                | ReadError what => Returned (log (error_line what) st2)
                | ReadOk subtree =>
                    merge_children
                      (fun p s =>
                         Load_rec E T fuel' p (parent_path E fsEffectivePath) s)
                      (children subtree) st2
                end
            end
        end
  end.

(** Nesting never exceeds [depthLimit + 1] calls. *)
Definition enough_fuel : nat := 21.

(** [Load(fsPath)], lines 95-100.  [is_relative()] is the negation of
    [is_absolute()]; [current_path()] is only evaluated for a relative
    path. *)
Definition Load (E : Env) (T : PtreeFileFormat) (fsPath : string)
           (st : PtreeLoader) : outcome :=
  let st0 := set_depth 0 st in
  if negb (is_absolute E fsPath) then
    match current_path E with
    | FsError what => Raised what st0
    | FsOk cwd => Load_rec E T enough_fuel fsPath cwd st0
    end
  else Load_rec E T enough_fuel fsPath "" st0.

Definition newline : string := String (ascii_of_nat 10) EmptyString.

(** The text of a sequence of streamed lines. *)
Definition text_of (ls : list string) : string :=
  fold_right (fun l acc => (l ++ newline ++ acc)%string) "" ls.

(** [diagnostic.str()]. *)
Definition diagnostic_str (st : PtreeLoader) : string :=
  text_of (diagnostic st).

(** [std::string delim( 80, '=' )]. *)
Definition delim : string :=
  string_of_list_ascii (repeat "="%char 80).

(** [DumpDiag()], lines 174-180. *)
Definition DumpDiag (st : PtreeLoader) : string :=
  (delim ++ newline ++ diagnostic_str st ++ delim ++ newline)%string.

(** A loader just constructed over the tree [t].  (The constructor leaves
    [depth] uninitialised; [Load] assigns it before reading it, so the
    value chosen here is immaterial.) *)
Definition new_loader (t : ptree) : PtreeLoader :=
  {| root := t; diagnostic := []; depth := 0 |}.

(* ===================================================================== *)
(** ** A small POSIX file system, for the examples *)
(* ===================================================================== *)

Module Posix.

Definition slash : ascii := "/".

Definition absolute (p : string) : bool :=
  match p with
  | String c _ => Ascii.eqb c slash
  | EmptyString => false
  end.

Fixpoint ends_with_slash (p : string) : bool :=
  match p with
  | EmptyString => false
  | String c EmptyString => Ascii.eqb c slash
  | String _ p' => ends_with_slash p'
  end.

(** [operator/]: an absolute right operand replaces the left one; otherwise
    the operands are joined with one separator. *)
Definition append (a b : string) : string :=
  if absolute b then b
  else if String.eqb a "" then b
  else if ends_with_slash a then (a ++ b)%string
  else (a ++ "/" ++ b)%string.

(** The text before the last ['/'], if there is one. *)
Fixpoint before_last_slash (p : string) : option string :=
  match p with
  | EmptyString => None
  | String c p' =>
      match before_last_slash p' with
      | Some d => Some (String c d)
      | None => if Ascii.eqb c slash then Some EmptyString else None
      end
  end.

Definition parent (p : string) : string :=
  match before_last_slash p with
  | None => ""
  | Some EmptyString => "/"
  | Some d => d
  end.

Fixpoint lookup (p : string) (files : list (string * read_result))
  : option read_result :=
  match files with
  | [] => None
  | (q, r) :: rest => if String.eqb q p then Some r else lookup p rest
  end.

Definition read (files : list (string * read_result)) (p : string)
  : read_result :=
  match lookup p files with
  | Some r => r
  | None => ReadError "cannot open file"
  end.

(** The file system with working directory [cwd] whose regular files are
    the paths of [files], each with what the parser makes of it.  There are
    no symbolic links and the examples use paths without [.] and [..], so
    canonicalisation leaves a path as it is. *)
Definition env (cwd : string) (files : list (string * read_result)) : Env :=
  {| is_absolute := absolute;
     path_append := append;
     parent_path := parent;
     current_path := FsOk cwd;
     weakly_canonical := fun p => FsOk p;
     fs_exists := fun p =>
       FsOk (match lookup p files with Some _ => true | None => false end);
     read_xml := read files;
     read_json := read files;
     read_info := read files |}.

Definition denied (p : string) : string :=
  ("filesystem error: status: Permission denied [" ++ p ++ "]")%string.

(** The same file system with a directory [/private] that the process may
    not search: every query on a path below it fails with [EACCES]. *)
Definition guarded_env (cwd : string) (files : list (string * read_result))
  : Env :=
  {| is_absolute := absolute;
     path_append := append;
     parent_path := parent;
     current_path := FsOk cwd;
     weakly_canonical := fun p =>
       if String.prefix "/private/" p then FsError (denied p) else FsOk p;
     fs_exists := fun p =>
       if String.prefix "/private/" p then FsError (denied p)
       else FsOk (match lookup p files with Some _ => true | None => false end);
     read_xml := read files;
     read_json := read files;
     read_info := read files |}.

End Posix.

(** A leaf [key = value]. *)
Definition leaf (k v : string) : string * ptree := (k, Node v []).

(** An object [{ ... }] as the JSON parser builds it. *)
Definition object (kvs : list (string * ptree)) : ptree := Node "" kvs.

(* ===================================================================== *)
(** ** Auxiliary definitions used by the statements *)
(* ===================================================================== *)

(** The state a call leaves behind, whether it returned or raised. *)
Definition final_state (o : outcome) : option PtreeLoader :=
  match o with
  | Returned st => Some st
  | Raised _ st => Some st
  | OutOfFuel => None
  end.

(** [weakly_canonical] of lines 112-113. *)
Definition effective_path (E : Env) (fsPath fsParentPath : string)
  : fs_result string :=
  weakly_canonical E (joined E fsPath fsParentPath).

(** The second argument of the call at line 99. *)
Definition initial_parent (E : Env) (fsPath : string) : fs_result string :=
  if negb (is_absolute E fsPath) then current_path E else FsOk "".

(** No key of [kvs] is the include key. *)
Definition no_include (kvs : list (string * ptree)) : bool :=
  forallb (fun kv => negb (String.eqb (fst kv) includeKey)) kvs.

(** The key holds no path separator. *)
Fixpoint plain_key (k : string) : bool :=
  match k with
  | EmptyString => true
  | String c k' => negb (Ascii.eqb c separator) && plain_key k'
  end.

Definition plain_keys (kvs : list (string * ptree)) : bool :=
  forallb (fun kv => plain_key (fst kv)) kvs.

(** [add_child] for each pair in turn. *)
Definition add_children (kvs : list (string * ptree)) (t : ptree) : ptree :=
  fold_left (fun acc kv => add_child (fst kv) (snd kv) acc) kvs t.

(** The log with [l] put in front. *)
Definition prepend (l : list string) (st : PtreeLoader) : PtreeLoader :=
  {| root := root st; diagnostic := l ++ diagnostic st; depth := depth st |}.

Definition map_state (f : PtreeLoader -> PtreeLoader) (o : outcome)
  : outcome :=
  match o with
  | Returned st => Returned (f st)
  | Raised w st => Raised w (f st)
  | OutOfFuel => OutOfFuel
  end.

(** Lines that announce a file being parsed, and lines that stand for one
    resolution step (every step that ends without an exception streams
    exactly one of them). *)
Definition is_loading (l : string) : bool := String.prefix "Loading: " l.

Definition is_step (l : string) : bool :=
  String.eqb l loop_line || String.prefix "Path not found: " l
  || String.prefix "Loading: " l.

Definition count (f : string -> bool) (ls : list string) : Z :=
  Z.of_nat (length (filter f ls)).

(** The line a step streams first once it knows whether its effective
    path exists. *)
Definition step_line (found : bool) (eff : string) : string :=
  if found then loading_line eff else not_found_line eff.

(** [grows a b]: the tree of [b] extends that of [a] and the log of [b]
    starts with that of [a]. *)
Definition grows (a b : PtreeLoader) : Prop :=
  extends (root a) (root b) /\
  exists new, diagnostic b = (diagnostic a ++ new)%list.

(** [requests st]: the counter minus the number of step lines in the log.
    A step that returns moves both by one. *)
Definition requests (st : PtreeLoader) : Z :=
  depth st - count is_step (diagnostic st).

(** Every file-system query succeeds. *)
Definition fs_never_fails (E : Env) : Prop :=
  (exists cwd, current_path E = FsOk cwd) /\
  (forall p, exists q, weakly_canonical E p = FsOk q) /\
  (forall p, exists b, fs_exists E p = FsOk b).

(** One file of a chain of includes: its effective path, the children
    before its include line, the value of the include line, and the
    children after it. *)
Record link : Type := {
  link_path : string;
  link_pre : list (string * ptree);
  link_inc : ptree;
  link_post : list (string * ptree)
}.

(** [is_chain E T p par links]: the request for [p] from directory [par]
    reaches the first file of [links], whose single include line requests
    the second one, and so on. *)
Fixpoint is_chain (E : Env) (T : PtreeFileFormat) (p par : string)
         (links : list link) : Prop :=
  match links with
  | [] => True
  | l :: rest =>
      effective_path E p par = FsOk (link_path l) /\
      fs_exists E (link_path l) = FsOk true /\
      (exists d, Reader E T (link_path l) =
                 ReadOk (Node d (link_pre l
                                 ++ (includeKey, link_inc l) :: link_post l))) /\
      no_include (link_pre l) = true /\
      no_include (link_post l) = true /\
      is_chain E T (data (link_inc l)) (parent_path E (link_path l)) rest
  end.

(** The pairs a chain merges, in the order the loader meets them. *)
Fixpoint chain_merge (links : list link) : list (string * ptree) :=
  match links with
  | [] => []
  | l :: rest =>
      link_pre l ++ (includeKey, link_inc l) :: chain_merge rest ++ link_post l
  end.

(* ===================================================================== *)
(** ** Example configurations *)
(* ===================================================================== *)

Module Examples.

Definition show (n : nat) : string :=
  NilEmpty.string_of_uint (Nat.to_uint n).

(** [a.json] = [{"x":1,"IncludeFile":"b.json"}] and [b.json] = [{"y":2}],
    both in [/cfg]. *)
Definition files_ab : list (string * read_result) :=
  [ ("/cfg/a.json", ReadOk (object [leaf "x" "1"; leaf includeKey "b.json"]));
    ("/cfg/b.json", ReadOk (object [leaf "y" "2"])) ].

(** [a.json] = [{"sub":{"IncludeFile":"b.json"}}]: the include key is one
    level down. *)
Definition files_nested : list (string * read_result) :=
  [ ("/cfg/a.json",
     ReadOk (object [("sub", object [leaf includeKey "b.json"])]));
    ("/cfg/b.json", ReadOk (object [leaf "y" "2"])) ].

(** [a.json] includes a file in a directory that may not be searched. *)
Definition files_private : list (string * read_result) :=
  [ ("/cfg/a.json", ReadOk (object [leaf includeKey "/private/x.json"])) ].

(** [bad.json] is rejected by the parser. *)
Definition files_bad : list (string * read_result) :=
  [ ("/cfg/a.json", ReadOk (object [leaf "x" "1"]));
    ("/cfg/bad.json", ReadError "/cfg/bad.json(1): expected value") ].

(** [s.json] holds the JSON text ["hello"], a scalar at top level, which
    the parser stores as the data of the root node; [d.json] holds
    [{"a.b":1}]. *)
Definition files_shapes : list (string * read_result) :=
  [ ("/cfg/s.json", ReadOk (Node "hello" []));
    ("/cfg/d.json", ReadOk (object [leaf "a.b" "1"])) ].

(** [/cfg/a.json] includes [sub/b.json], which includes [c.json]. *)
Definition files_dirs : list (string * read_result) :=
  [ ("/cfg/a.json", ReadOk (object [leaf includeKey "sub/b.json"]));
    ("/cfg/sub/b.json", ReadOk (object [leaf includeKey "c.json"]));
    ("/cfg/sub/c.json", ReadOk (object [leaf "z" "3"])) ].

(** [f0.json] includes [f1.json], which includes [f2.json], ... *)
Definition chain_name (i : nat) : string :=
  ("f" ++ show i ++ ".json")%string.

Definition chain_link (i : nat) : link :=
  {| link_path := ("/cfg/" ++ chain_name i)%string;
     link_pre := [leaf "k" (show i)];
     link_inc := Node (chain_name (S i)) [];
     link_post := [] |}.

Definition chain_links (n : nat) : list link := map chain_link (seq 0 n).

Definition chain_file (l : link) : string * read_result :=
  (link_path l,
   ReadOk (object (link_pre l ++ (includeKey, link_inc l) :: link_post l))).

Definition files_chain (n : nat) : list (string * read_result) :=
  map chain_file (chain_links n).

(** [root.json] includes [f1.json] ... [fn.json], none of which includes
    anything: every include is at nesting depth 2. *)
Definition files_fan (n : nat) : list (string * read_result) :=
  ("/cfg/root.json",
   ReadOk (object (map (fun i => leaf includeKey (chain_name i)) (seq 1 n))))
  :: map (fun i => (("/cfg/" ++ chain_name i)%string,
                    ReadOk (object [leaf "k" (show i)]))) (seq 1 n).

End Examples.

(* ===================================================================== *)
(** ** Sessions below the limit: what a request unfolds to *)
(* ===================================================================== *)

(** What one request turns out to be: its effective path does not exist,
    or the parser rejects it, or it parses to a root with data [d] whose
    children are listed in [body].  A child is either an ordinary pair or
    an include line together with what its own request turns out to be. *)
Inductive plan : Type :=
| Missing (eff : string)
| Unparsable (eff what : string)
| Parsed (eff d : string) (b : body)
with body : Type :=
| Done
| Plain (k : string) (v : ptree) (rest : body)
| Include (v : ptree) (sub : plan) (rest : body).

Scheme plan_mut := Induction for plan Sort Prop
  with body_mut := Induction for body Sort Prop.
Combined Scheme plan_body_ind from plan_mut, body_mut.

(** The children of the parsed file, as the parser delivers them. *)
Fixpoint body_children (b : body) : list (string * ptree) :=
  match b with
  | Done => []
  | Plain k v rest => (k, v) :: body_children rest
  | Include v _ rest => (includeKey, v) :: body_children rest
  end.

(** Number of requests ([Load] calls) a plan stands for. *)
Fixpoint plan_requests (pl : plan) : nat :=
  match pl with
  | Missing _ => 1
  | Unparsable _ _ => 1
  | Parsed _ _ b => S (body_requests b)
  end
with body_requests (b : body) : nat :=
  match b with
  | Done => 0
  | Plain _ _ rest => body_requests rest
  | Include _ sub rest => (plan_requests sub + body_requests rest)%nat
  end.

(** The pairs in the order they are merged: an include line first, then
    what its file contributes, then the siblings after it. *)
Fixpoint plan_pairs (pl : plan) : list (string * ptree) :=
  match pl with
  | Missing _ => []
  | Unparsable _ _ => []
  | Parsed _ _ b => body_pairs b
  end
with body_pairs (b : body) : list (string * ptree) :=
  match b with
  | Done => []
  | Plain k v rest => (k, v) :: body_pairs rest
  | Include v sub rest => (includeKey, v) :: plan_pairs sub ++ body_pairs rest
  end.

(** The lines streamed, in order. *)
Fixpoint plan_log (pl : plan) : list string :=
  match pl with
  | Missing eff => [not_found_line eff]
  | Unparsable eff what => [loading_line eff; error_line what]
  | Parsed eff _ b => loading_line eff :: body_log b
  end
with body_log (b : body) : list string :=
  match b with
  | Done => []
  | Plain _ _ rest => body_log rest
  | Include _ sub rest => plan_log sub ++ body_log rest
  end.

(** [plan_ok E T p par pl]: in the environment [E], the request for [p]
    from the directory [par] turns out as [pl] says, and so do the requests
    of its include lines. *)
Fixpoint plan_ok (E : Env) (T : PtreeFileFormat) (p par : string)
         (pl : plan) : Prop :=
  match pl with
  | Missing eff =>
      effective_path E p par = FsOk eff /\ fs_exists E eff = FsOk false
  | Unparsable eff what =>
      effective_path E p par = FsOk eff /\ fs_exists E eff = FsOk true /\
      Reader E T eff = ReadError what
  | Parsed eff d b =>
      effective_path E p par = FsOk eff /\ fs_exists E eff = FsOk true /\
      Reader E T eff = ReadOk (Node d (body_children b)) /\
      body_ok E T (parent_path E eff) b
  end
with body_ok (E : Env) (T : PtreeFileFormat) (dir : string) (b : body)
  : Prop :=
  match b with
  | Done => True
  | Plain k v rest => String.eqb k includeKey = false /\ body_ok E T dir rest
  | Include v sub rest =>
      plan_ok E T (data v) dir sub /\ body_ok E T dir rest
  end.

(** The line of an abandoned request. *)
Definition is_loop (l : string) : bool := String.eqb l loop_line.

(** Number of include lines among the children. *)
Definition count_includes (kvs : list (string * ptree)) : nat :=
  length (filter (fun kv => String.eqb (fst kv) includeKey) kvs).

(** Two environments that answer alike wherever a resolution step for the
    format [T] asks. *)
Definition same_answers (T : PtreeFileFormat) (E E' : Env) : Prop :=
  (forall p, is_absolute E p = is_absolute E' p) /\
  (forall a b, path_append E a b = path_append E' a b) /\
  (forall p, parent_path E p = parent_path E' p) /\
  (forall p, weakly_canonical E p = weakly_canonical E' p) /\
  (forall p, fs_exists E p = fs_exists E' p) /\
  (forall f, Reader E T f = Reader E' T f).

(** [E] with another working directory. *)
Definition with_current_path (cwd : fs_result string) (E : Env) : Env :=
  {| is_absolute := is_absolute E;
     path_append := path_append E;
     parent_path := parent_path E;
     current_path := cwd;
     weakly_canonical := weakly_canonical E;
     fs_exists := fs_exists E;
     read_xml := read_xml E;
     read_json := read_json E;
     read_info := read_info E |}.

(** [E] with other parsers. *)
Definition with_parsers (rx rj ri : string -> read_result) (E : Env) : Env :=
  {| is_absolute := is_absolute E;
     path_append := path_append E;
     parent_path := parent_path E;
     current_path := current_path E;
     weakly_canonical := weakly_canonical E;
     fs_exists := fs_exists E;
     read_xml := rx;
     read_json := rj;
     read_info := ri |}.

(** Two [Load] calls on the same loader, one after the other. *)
Definition Load_then (E : Env) (T : PtreeFileFormat) (p q : string)
           (st : PtreeLoader) : outcome :=
  match Load E T p st with
  | Returned st1 => Load E T q st1
  | o => o
  end.

(* ===================================================================== *)
(** ** [Writer], [DumpPtree] and the example program *)
(* ===================================================================== *)

(** A Boost writer either produces the text or throws
    ([file_parser_error], e.g. for a tree the format cannot hold). *)
Inductive write_result : Type :=
| Written (text : string)
| WriteError (what : string).

(** What the example program needs besides [Env]: the three writers and
    [fs::path::extension]. *)
Record Host : Type := {
  write_xml : ptree -> write_result;
  write_json : ptree -> write_result;
  write_info : ptree -> write_result;
  extension : string -> string
}.

(** The [Writer] specialisations generated by [PTREE_PARSER]. *)
Definition Writer (H : Host) (T : PtreeFileFormat) (pt : ptree)
  : write_result :=
  match T with
  | xml => write_xml H pt
  | json => write_json H pt
  | info => write_info H pt
  end.

(** [DumpPtree()], lines 183-193.  An exception of the writer leaves the
    function; the local stream is lost. *)
Definition DumpPtree (H : Host) (T : PtreeFileFormat) (st : PtreeLoader)
  : write_result :=
  match Writer H T (root st) with
  | Written text =>
      Written (delim ++ newline ++ text ++ newline ++ delim ++ newline)%string
  | WriteError what => WriteError what
  end.

(** How the program ends.  [Exited code out]: [main] returned [code] and
    [out] is what it printed.  [Uncaught what pending]: an exception nobody
    catches ended the process ([std::terminate], [abort]); [pending] is the
    text the program had passed to [std::print] by then.  Standard output
    is buffered and [abort] does not flush it, so how much of [pending] is
    ever seen, if anything, is not determined by the program: nothing on a
    pipe or a file while the buffer is not full. *)
Inductive run : Type :=
| Exited (code : Z) (out : string)
| Uncaught (what : string) (pending : string).

(** [TestPtreeLoader<T>], [src/Example/main.cpp] lines 14-24; [out] is the
    text passed to [std::print] before.  The result is the text passed to
    [std::print] when the function returns ([inl]), or the exception that
    leaves it together with the text passed by then ([inr]).  The
    diagnostic dump is passed on before the tree is serialised.  (The last
    case never occurs: [Load] does not run out of fuel.) *)
Definition TestPtreeLoader (E : Env) (H : Host) (T : PtreeFileFormat)
           (fsPath : string) (out : string) : string + string * string :=
  match Load E T fsPath (new_loader empty_ptree) with
  | Returned st =>
      match DumpPtree H T st with
      | Written text => inl (out ++ DumpDiag st ++ text)%string
      | WriteError what => inr (what, (out ++ DumpDiag st)%string)
      end
  | Raised what _ => inr (what, out)
  | OutOfFuel => inr ("", out)
  end.

Definition banner : string :=
  ("--------------------------------" ++ newline ++
   "|         Ptree Loader         |" ++ newline ++
   "--------------------------------" ++ newline)%string.

Definition usage : string := "Usage: PtreeLoader <filename>".

Definition assuming (T : PtreeFileFormat) : string :=
  match T with
  | xml => "Assuming XML format..."
  | json => "Assuming JSON format..."
  | info => "Assuming INFO format..."
  end ++ newline.

(** The format the program infers from the extension, lines 46-60. *)
Definition format_of_extension (ext : string) : option PtreeFileFormat :=
  if String.eqb ext ".xml" then Some xml
  else if String.eqb ext ".json" then Some json
  else if String.eqb ext ".info" then Some info
  else None.

(** [main], lines 29-63; [argv] holds the [argc] arguments, program name
    first. *)
Definition main (E : Env) (H : Host) (argv : list string) : run :=
  if (length argv <? 2)%nat then Exited 0 (banner ++ usage)%string
  else
    let fsPath := nth 1 argv "" in
    match format_of_extension (extension H fsPath) with
    | Some T =>
        match TestPtreeLoader E H T fsPath (banner ++ assuming T)%string with
        | inl out => Exited 0 out
        | inr (what, out) => Uncaught what out
        end
    | None => Exited 0 banner
    end.

Module MoreExamples.

(** [a.json] = [{"x":1, "IncludeFile":"missing.json",
    "IncludeFile":"bad.json", "IncludeFile":"b.json", "w":4}]. *)
Definition files_mixed : list (string * read_result) :=
  [ ("/cfg/a.json",
     ReadOk (object [leaf "x" "1"; leaf includeKey "missing.json";
                     leaf includeKey "bad.json"; leaf includeKey "b.json";
                     leaf "w" "4"]));
    ("/cfg/bad.json", ReadError "/cfg/bad.json(1): expected value");
    ("/cfg/b.json", ReadOk (object [leaf "y" "2"])) ].

Definition plan_mixed : plan :=
  Parsed "/cfg/a.json" ""
    (Plain "x" (Node "1" [])
       (Include (Node "missing.json" []) (Missing "/cfg/missing.json")
          (Include (Node "bad.json" [])
             (Unparsable "/cfg/bad.json" "/cfg/bad.json(1): expected value")
             (Include (Node "b.json" [])
                (Parsed "/cfg/b.json" "" (Plain "y" (Node "2" []) Done))
                (Plain "w" (Node "4" []) Done))))).

(** [loop.json] includes itself. *)
Definition files_loop : list (string * read_result) :=
  [ ("/cfg/loop.json",
     ReadOk (object [leaf "a" "1"; leaf includeKey "loop.json";
                     leaf "b" "2"])) ].

(** The text after the last ['.'] of the path, with the dot; enough of
    [fs::path::extension] for file names with one dot inside. *)
Fixpoint from_last_dot (p : string) : option string :=
  match p with
  | EmptyString => None
  | String c p' =>
      match from_last_dot p' with
      | Some e => Some e
      | None => if Ascii.eqb c "." then Some p else None
      end
  end.

(** [/cfg/a.json] includes [sub/b.json], which has two include lines,
    for [c.json] and for [d.json]; both files lie in [/cfg/sub]. *)
Definition files_two_includes : list (string * read_result) :=
  [ ("/cfg/a.json", ReadOk (object [leaf includeKey "sub/b.json"]));
    ("/cfg/sub/b.json",
     ReadOk (object [leaf includeKey "c.json"; leaf includeKey "d.json"]));
    ("/cfg/sub/c.json", ReadOk (object [leaf "z" "3"]));
    ("/cfg/sub/d.json", ReadOk (object [leaf "u" "4"])) ].

(** [dup.json] = [{"k.x":1,"k.x":2}]. *)
Definition files_dup : list (string * read_result) :=
  [ ("/cfg/dup.json", ReadOk (object [leaf "k.x" "1"; leaf "k.x" "2"])) ].

(** [a.json] = [{"a":1,"a.b":2}]. *)
Definition files_dotted : list (string * read_result) :=
  [ ("/cfg/a.json", ReadOk (object [leaf "a" "1"; leaf "a.b" "2"])) ].

(** The check the JSON writer makes before it writes: the root has no data
    and no node has both data and children. *)
Fixpoint representable (top : bool) (pt : ptree) : bool :=
  match pt with
  | Node d cs =>
      negb (top && negb (String.eqb d ""))
      && negb (negb (String.eqb d "")
               && match cs with [] => false | _ :: _ => true end)
      && (fix all (l : list (string * ptree)) : bool :=
            match l with
            | [] => true
            | (_, c) :: r => representable false c && all r
            end) cs
  end.

(** A host whose JSON writer refuses the trees JSON cannot represent; what
    the writers print is reduced to the top-level keys. *)
Definition show_keys (pt : ptree) : string :=
  String.concat "," (map fst (children pt)).

Definition host : Host :=
  {| write_xml := fun pt => Written (show_keys pt);
     write_json := fun pt =>
       if representable true pt then Written (show_keys pt)
       else WriteError "<unspecified file>: ptree contains data that cannot be represented in JSON format";
     write_info := fun pt => Written (show_keys pt);
     extension := fun p =>
       match from_last_dot p with Some e => e | None => "" end |}.

(** A host whose writers accept every tree. *)
Definition lenient_host : Host :=
  {| write_xml := fun pt => Written (show_keys pt);
     write_json := fun pt => Written (show_keys pt);
     write_info := fun pt => Written (show_keys pt);
     extension := extension host |}.

End MoreExamples.

(* ===================================================================== *)
(** ** Trees: induction, growth, [add_child] *)
(* ===================================================================== *)

Lemma extends_node d cs d' cs' :
  extends (Node d cs) (Node d' cs') <-> d = d' /\ extends_children cs cs'.
Proof.
  simpl. split; intros [Hd H]; split; auto; clear Hd;
    revert cs' H; induction cs as [|[k c] r IH]; intros [|[k' c'] r'];
    simpl; auto; intros (Hk & Hc & Hr); auto.
Qed.

Lemma extends_children_refl_from cs :
  Forall (fun kv => extends (snd kv) (snd kv)) cs -> extends_children cs cs.
Proof.
  induction 1 as [|[k c] r Hc _ IH]; simpl; auto.
Qed.

Lemma extends_refl t : extends t t.
Proof.
  induction t as [d cs IH] using ptree_rect'.
  apply extends_node. split; auto using extends_children_refl_from.
Qed.

Lemma extends_children_refl cs : extends_children cs cs.
Proof.
  apply extends_children_refl_from, Forall_forall.
  intros; apply extends_refl.
Qed.

Lemma extends_trans t1 : forall t2 t3,
  extends t1 t2 -> extends t2 t3 -> extends t1 t3.
Proof.
  induction t1 as [d1 cs1 IH] using ptree_rect'.
  intros [d2 cs2] [d3 cs3] H12 H23.
  apply extends_node in H12 as [-> H12].
  apply extends_node in H23 as [-> H23].
  apply extends_node. split; auto.
  revert cs2 cs3 H12 H23.
  induction IH as [|[k1 c1] r1 Hc _ IHr]; intros [|[k2 c2] r2] [|[k3 c3] r3];
    simpl; auto; try tauto.
  intros (-> & H1 & H1r) (-> & H2 & H2r).
  repeat split; eauto.
Qed.

Lemma extends_children_app l extra : extends_children l (l ++ extra).
Proof.
  induction l as [|[k c] r IH]; simpl; auto using extends_refl.
Qed.

Lemma extends_children_cons k c c' r r' :
  extends c c' -> extends_children r r' ->
  extends_children ((k, c) :: r) ((k, c') :: r').
Proof. simpl; auto. Qed.

Lemma extends_same_data t t' : extends t t' -> data t = data t'.
Proof.
  destruct t, t'. intros H. apply extends_node in H as [H _]. exact H.
Qed.

Lemma extends_children_of t t' :
  extends t t' -> extends_children (children t) (children t').
Proof.
  destruct t, t'. intros H. apply extends_node in H as [_ H]. exact H.
Qed.

Lemma extends_push_back k v t : extends t (push_back k v t).
Proof.
  destruct t as [d cs]. apply extends_node.
  split; auto. apply extends_children_app.
Qed.

(** A child of [t] is still there, possibly grown, in whatever extends
    [t]. *)
Lemma extends_children_In l : forall l' k c,
  extends_children l l' -> In (k, c) l ->
  exists c', In (k, c') l' /\ extends c c'.
Proof.
  induction l as [|[k0 c0] r IH]; intros [|[k1 c1] r'] k c H Hin;
    simpl in *; try tauto.
  destruct H as (-> & Hc & Hr). destruct Hin as [Heq | Hin].
  - inversion Heq; subst. eauto.
  - destruct (IH _ _ _ Hr Hin) as (c' & ? & ?). eauto.
Qed.

Lemma located_extends frags : forall v t t',
  extends t t' -> located frags v t -> located frags v t'.
Proof.
  induction frags as [|f rest IH]; simpl; intros v t t' Hext Hloc.
  - eapply extends_trans; eauto.
  - destruct Hloc as (c & Hin & Hc).
    destruct (extends_children_In _ _ _ _ (extends_children_of _ _ Hext) Hin)
      as (c' & Hin' & Hcc').
    exists c'. split; eauto.
Qed.

Lemma modify_first_extends k g cs : forall cs',
  (forall c, extends c (g c)) ->
  modify_first k g cs = Some cs' -> extends_children cs cs'.
Proof.
  induction cs as [|[k0 c0] r IH]; simpl; intros cs' Hg H; [discriminate|].
  destruct (String.eqb k0 k).
  - inversion H; subst. apply extends_children_cons; auto.
    apply extends_children_refl.
  - destruct (modify_first k g r) as [r'|] eqn:Hr; [|discriminate].
    inversion H; subst.
    apply extends_children_cons; auto using extends_refl.
Qed.

Lemma modify_first_In k g cs : forall cs',
  modify_first k g cs = Some cs' -> exists c, In (k, g c) cs'.
Proof.
  induction cs as [|[k0 c0] r IH]; simpl; intros cs' H; [discriminate|].
  destruct (String.eqb k0 k) eqn:Hk.
  - apply String.eqb_eq in Hk; subst. inversion H; subst.
    exists c0. simpl; auto.
  - destruct (modify_first k g r) as [r'|] eqn:Hr; [|discriminate].
    inversion H; subst. destruct (IH _ eq_refl) as (c & Hc).
    exists c. simpl; auto.
Qed.

Lemma add_at_extends frags : forall v t, extends t (add_at frags v t).
Proof.
  induction frags as [|f rest IH]; intros v t; simpl.
  - apply extends_refl.
  - destruct rest as [|f' rest'].
    + apply extends_push_back.
    + destruct (modify_first f (add_at (f' :: rest') v) (children t))
        as [cs'|] eqn:Hm.
      * destruct t as [d cs]. apply extends_node. split; auto.
        eapply modify_first_extends; eauto.
      * apply extends_push_back.
Qed.

Lemma add_at_located frags : forall v t,
  frags <> [] -> located frags v (add_at frags v t).
Proof.
  induction frags as [|f rest IH]; intros v t Hne; [congruence|].
  destruct rest as [|f' rest'].
  - simpl. exists v. split; [|apply extends_refl].
    apply in_or_app; right; simpl; auto.
  - change (add_at (f :: f' :: rest') v t)
      with (match modify_first f (add_at (f' :: rest') v) (children t) with
            | Some cs' => Node (data t) cs'
            | None => push_back f (add_at (f' :: rest') v empty_ptree) t
            end).
    change (located (f :: f' :: rest') v ?x)
      with (exists c, In (f, c) (children x) /\ located (f' :: rest') v c).
    destruct (modify_first f (add_at (f' :: rest') v) (children t))
      as [cs'|] eqn:Hm.
    + destruct (modify_first_In _ _ _ _ Hm) as (c & Hc).
      exists (add_at (f' :: rest') v c). split; auto.
      apply IH; discriminate.
    + exists (add_at (f' :: rest') v empty_ptree). split.
      * simpl. apply in_or_app; right; simpl; auto.
      * apply IH; discriminate.
Qed.

Lemma fragments_nonempty k : fragments k <> [].
Proof.
  destruct k as [|c k]; simpl; [discriminate|].
  destruct (Ascii.eqb c separator); [discriminate|].
  destruct (fragments k); discriminate.
Qed.

Lemma fragments_plain k : plain_key k = true -> fragments k = [k].
Proof.
  induction k as [|c k IH]; simpl; auto.
  destruct (Ascii.eqb c separator); simpl; [discriminate|].
  intros H. rewrite IH; auto.
Qed.

Lemma add_child_extends k v t : extends t (add_child k v t).
Proof. apply add_at_extends. Qed.

Lemma add_child_located k v t : located (fragments k) v (add_child k v t).
Proof. apply add_at_located, fragments_nonempty. Qed.

Lemma add_child_plain k v t :
  plain_key k = true -> add_child k v t = push_back k v t.
Proof. intros H. unfold add_child. rewrite fragments_plain; auto. Qed.

Lemma add_child_includeKey v t :
  add_child includeKey v t = push_back includeKey v t.
Proof. apply add_child_plain. reflexivity. Qed.

Lemma add_children_app l1 l2 t :
  add_children (l1 ++ l2) t = add_children l2 (add_children l1 t).
Proof. apply fold_left_app. Qed.

Lemma add_children_extends kvs : forall t, extends t (add_children kvs t).
Proof.
  induction kvs as [|[k v] r IH]; intros t; simpl.
  - apply extends_refl.
  - eapply extends_trans; [apply add_child_extends | apply IH].
Qed.

(** Keys without separator are pushed at the back, one after the other. *)
Lemma add_children_plain kvs : forall t,
  plain_keys kvs = true ->
  add_children kvs t = Node (data t) (children t ++ kvs).
Proof.
  induction kvs as [|[k v] r IH]; intros t H; simpl in *.
  - rewrite app_nil_r. destruct t; reflexivity.
  - apply andb_prop in H as [Hk Hr].
    unfold add_children in IH. rewrite IH by assumption.
    rewrite add_child_plain by assumption.
    simpl. rewrite <- app_assoc. reflexivity.
Qed.

(* ===================================================================== *)
(** ** The resolution step, case by case *)
(* ===================================================================== *)

Section Resolution.

Variable E : Env.
Variable T : PtreeFileFormat.

Lemma Load_rec_S n p par st :
  Load_rec E T (S n) p par st =
  let st1 := set_depth (depth st + 1) st in
  if depth st + 1 >? depthLimit then Returned (log loop_line st1)
  else
    match effective_path E p par with
    | FsError w => Raised w st1
    | FsOk eff =>
        match fs_exists E eff with
        | FsError w => Raised w st1
        | FsOk false => Returned (log (not_found_line eff) st1)
        | FsOk true =>
            match Reader E T eff with
            | ReadError w =>
                Returned (log (error_line w) (log (loading_line eff) st1))
            | ReadOk subtree =>
                merge_children
                  (fun q s => Load_rec E T n q (parent_path E eff) s)
                  (children subtree) (log (loading_line eff) st1)
            end
        end
    end.
Proof. reflexivity. Qed.

Lemma Load_initial p st :
  Load E T p st =
  match initial_parent E p with
  | FsError w => Raised w (set_depth 0 st)
  | FsOk par => Load_rec E T enough_fuel p par (set_depth 0 st)
  end.
Proof.
  unfold Load, initial_parent.
  destruct (negb (is_absolute E p)); [destruct (current_path E)|]; reflexivity.
Qed.

Lemma over_limit st :
  20 <= depth st -> (depth st + 1 >? depthLimit) = true.
Proof. unfold depthLimit. intros H. apply Z.gtb_lt. lia. Qed.

Lemma within_limit st :
  depth st < 20 -> (depth st + 1 >? depthLimit) = false.
Proof.
  unfold depthLimit. intros H.
  destruct (depth st + 1 >? 20) eqn:Hc; auto. apply Z.gtb_lt in Hc. lia.
Qed.

Lemma Load_rec_limit n p par st :
  20 <= depth st ->
  Load_rec E T (S n) p par st =
  Returned (log loop_line (set_depth (depth st + 1) st)).
Proof. intros H. rewrite Load_rec_S. cbv zeta. rewrite over_limit; auto. Qed.

Lemma Load_rec_not_found n p par st eff :
  depth st < 20 ->
  effective_path E p par = FsOk eff ->
  fs_exists E eff = FsOk false ->
  Load_rec E T (S n) p par st =
  Returned (log (not_found_line eff) (set_depth (depth st + 1) st)).
Proof.
  intros H He Hx. rewrite Load_rec_S. cbv zeta.
  rewrite within_limit, He, Hx; auto.
Qed.

Lemma Load_rec_parse_error n p par st eff w :
  depth st < 20 ->
  effective_path E p par = FsOk eff ->
  fs_exists E eff = FsOk true ->
  Reader E T eff = ReadError w ->
  Load_rec E T (S n) p par st =
  Returned (log (error_line w)
              (log (loading_line eff) (set_depth (depth st + 1) st))).
Proof.
  intros H He Hx Hr. rewrite Load_rec_S. cbv zeta.
  rewrite within_limit, He, Hx, Hr; auto.
Qed.

Lemma Load_rec_parsed n p par st eff subtree :
  depth st < 20 ->
  effective_path E p par = FsOk eff ->
  fs_exists E eff = FsOk true ->
  Reader E T eff = ReadOk subtree ->
  Load_rec E T (S n) p par st =
  merge_children (fun q s => Load_rec E T n q (parent_path E eff) s)
    (children subtree)
    (log (loading_line eff) (set_depth (depth st + 1) st)).
Proof.
  intros H He Hx Hr. rewrite Load_rec_S. cbv zeta.
  rewrite within_limit, He, Hx, Hr; auto.
Qed.

(** *** The merge loop *)

Lemma merge_children_app load l1 : forall l2 st,
  merge_children load (l1 ++ l2) st =
  match merge_children load l1 st with
  | Returned st1 => merge_children load l2 st1
  | o => o
  end.
Proof.
  induction l1 as [|[k v] r IH]; intros l2 st; simpl; auto.
  destruct (String.eqb k includeKey); auto.
  destruct (load (data v) _); auto.
Qed.

Lemma merge_children_no_include load kvs : forall st,
  no_include kvs = true ->
  merge_children load kvs st =
  Returned (set_root (add_children kvs (root st)) st).
Proof.
  induction kvs as [|[k v] r IH]; intros st H; simpl in *.
  - destruct st; reflexivity.
  - apply andb_prop in H as [Hk Hr]. simpl in Hk.
    destruct (String.eqb k includeKey); [discriminate|].
    rewrite IH by assumption. reflexivity.
Qed.

Lemma merge_children_include load v rest st :
  merge_children load ((includeKey, v) :: rest) st =
  match load (data v) (set_root (push_back includeKey v (root st)) st) with
  | Returned st2 => merge_children load rest st2
  | o => o
  end.
Proof. simpl. rewrite add_child_includeKey. reflexivity. Qed.


(** *** Invariants of a session

    A relation between the state before and the state after that is
    reflexive, transitive and kept by each elementary move of the step,
    relates the state a call starts in to the state it leaves. *)

Section Invariant.

Variable R : PtreeLoader -> PtreeLoader -> Prop.
Hypothesis R_refl : forall st, R st st.
Hypothesis R_trans : forall a b c, R a b -> R b c -> R a c.
Hypothesis R_loop : forall st,
  20 <= depth st -> R st (log loop_line (set_depth (depth st + 1) st)).
Hypothesis R_enter : forall st,
  depth st < 20 -> R st (set_depth (depth st + 1) st).
Hypothesis R_not_found : forall st eff,
  depth st < 20 ->
  R st (log (not_found_line eff) (set_depth (depth st + 1) st)).
Hypothesis R_loading : forall st eff,
  depth st < 20 ->
  R st (log (loading_line eff) (set_depth (depth st + 1) st)).
Hypothesis R_error : forall st w, R st (log (error_line w) st).
Hypothesis R_add : forall st k v,
  R st (set_root (add_child k v (root st)) st).

Lemma merge_children_invariant load kvs :
  (forall q s s', final_state (load q s) = Some s' -> R s s') ->
  forall st st',
    final_state (merge_children load kvs st) = Some st' -> R st st'.
Proof.
  intros Hload. induction kvs as [|[k v] r IH]; intros st st' H; simpl in H.
  - inversion H; subst; auto.
  - pose proof (R_add st k v) as Hadd.
    destruct (String.eqb k includeKey).
    + destruct (load (data v) _) as [st2|w st2|] eqn:Hl.
      * apply R_trans with (1 := Hadd).
        apply R_trans with st2; [apply Hload with (data v); rewrite Hl; reflexivity|].
        apply IH; assumption.
      * simpl in H. inversion H; subst.
        apply R_trans with (1 := Hadd).
        apply Hload with (data v); rewrite Hl; reflexivity.
      * discriminate.
    + apply R_trans with (1 := Hadd). apply IH; assumption.
Qed.

Lemma Load_rec_invariant fuel : forall p par st st',
  final_state (Load_rec E T fuel p par st) = Some st' -> R st st'.
Proof.
  induction fuel as [|n IH]; intros p par st st' H; [discriminate|].
  rewrite Load_rec_S in H. cbv zeta in H.
  destruct (depth st + 1 >? depthLimit) eqn:Hd.
  - inversion H; subst. apply R_loop.
    apply Z.gtb_lt in Hd. unfold depthLimit in Hd. lia.
  - assert (Hlt : depth st < 20).
    { destruct (Z.gtb_spec (depth st + 1) depthLimit); [discriminate|].
      unfold depthLimit in *. lia. }
    destruct (effective_path E p par) as [eff|w].
    2:{ inversion H; subst. auto. }
    destruct (fs_exists E eff) as [[|]|w].
    3:{ inversion H; subst. auto. }
    2:{ inversion H; subst. auto. }
    destruct (Reader E T eff) as [subtree|w].
    2:{ inversion H; subst. eapply R_trans; [apply R_loading|apply R_error].
        assumption. }
    eapply R_trans; [apply (R_loading st eff Hlt)|].
    eapply merge_children_invariant; [|exact H].
    intros q s s'. apply IH.
Qed.

Lemma Load_invariant p st st' :
  final_state (Load E T p st) = Some st' -> R (set_depth 0 st) st'.
Proof.
  rewrite Load_initial. destruct (initial_parent E p) as [par|w].
  - apply Load_rec_invariant.
  - intros H; inversion H; subst. apply R_refl.
Qed.

End Invariant.

(** The depth counter never decreases, and every call increments it. *)
Lemma Load_rec_depth_mono fuel p par st st' :
  final_state (Load_rec E T fuel p par st) = Some st' ->
  depth st <= depth st'.
Proof.
  apply (Load_rec_invariant (fun a b => depth a <= depth b));
    simpl; intros; lia.
Qed.

Lemma merge_children_depth_mono n dir kvs st st' :
  final_state
    (merge_children (fun q s => Load_rec E T n q dir s) kvs st) = Some st' ->
  depth st <= depth st'.
Proof.
  apply (merge_children_invariant (fun a b => depth a <= depth b));
    simpl; intros; try lia.
  eapply Load_rec_depth_mono; eauto.
Qed.

Lemma Load_rec_depth_incr fuel p par st st' :
  final_state (Load_rec E T fuel p par st) = Some st' ->
  depth st + 1 <= depth st'.
Proof.
  destruct fuel as [|n]; [discriminate|].
  rewrite Load_rec_S. cbv zeta.
  destruct (depth st + 1 >? depthLimit).
  { intros H; inversion H; subst; simpl; lia. }
  destruct (effective_path E p par) as [eff|w].
  2:{ intros H; inversion H; subst; simpl; lia. }
  destruct (fs_exists E eff) as [[|]|w].
  2,3: intros H; inversion H; subst; simpl; lia.
  destruct (Reader E T eff) as [subtree|w].
  2:{ intros H; inversion H; subst; simpl; lia. }
  intros H. apply merge_children_depth_mono in H. simpl in H. lia.
Qed.

(** *** Termination: the fuel of [Load] is never used up *)

Lemma merge_children_total n dir kvs : forall st,
  (forall q s, depth st <= depth s ->
               Load_rec E T n q dir s <> OutOfFuel) ->
  merge_children (fun q s => Load_rec E T n q dir s) kvs st <> OutOfFuel.
Proof.
  induction kvs as [|[k v] r IH]; intros st Hload; simpl; [discriminate|].
  destruct (String.eqb k includeKey).
  - destruct (Load_rec E T n (data v) dir _) as [st2|w st2|] eqn:Hl.
    + apply IH. intros q s Hs. apply Hload.
      assert (Hm : final_state (Load_rec E T n (data v) dir
                (set_root (add_child k v (root st)) st)) = Some st2)
        by (rewrite Hl; reflexivity).
      apply Load_rec_depth_mono in Hm. simpl in Hm. lia.
    + discriminate.
    + exfalso. revert Hl. apply Hload. simpl. lia.
  - apply IH. intros q s Hs. apply Hload. simpl in Hs. lia.
Qed.

Lemma Load_rec_total fuel : forall p par st,
  (1 <= fuel)%nat -> 21 <= Z.of_nat fuel + depth st ->
  Load_rec E T fuel p par st <> OutOfFuel.
Proof.
  induction fuel as [|n IH]; intros p par st H1 H21; [lia|].
  rewrite Load_rec_S. cbv zeta.
  destruct (depth st + 1 >? depthLimit) eqn:Hd; [discriminate|].
  assert (Hlt : depth st < 20).
  { destruct (Z.gtb_spec (depth st + 1) depthLimit); [discriminate|].
    unfold depthLimit in *. lia. }
  destruct (effective_path E p par) as [eff|w]; [|discriminate].
  destruct (fs_exists E eff) as [[|]|w]; try discriminate.
  destruct (Reader E T eff) as [subtree|w]; [|discriminate].
  apply merge_children_total. simpl. intros q s Hs.
  apply IH; lia.
Qed.

Lemma Load_total p st : Load E T p st <> OutOfFuel.
Proof.
  rewrite Load_initial. destruct (initial_parent E p); [|discriminate].
  apply Load_rec_total; unfold enough_fuel; simpl; lia.
Qed.

Lemma Load_final_state p st : exists st', final_state (Load E T p st) = Some st'.
Proof.
  destruct (Load E T p st) as [s|w s|] eqn:H; simpl; eauto.
  exfalso. revert H. apply Load_total.
Qed.

End Resolution.

(* ===================================================================== *)
(** ** The log is only appended to *)
(* ===================================================================== *)

Section Log.

Variable E : Env.
Variable T : PtreeFileFormat.

Lemma log_prepend l x st : log x (prepend l st) = prepend l (log x st).
Proof. unfold log, prepend. simpl. rewrite app_assoc. reflexivity. Qed.

Lemma merge_children_prepend l load kvs :
  (forall q s, load q (prepend l s) = map_state (prepend l) (load q s)) ->
  forall st,
    merge_children load kvs (prepend l st) =
    map_state (prepend l) (merge_children load kvs st).
Proof.
  intros Hload. induction kvs as [|[k v] r IH]; intros st; simpl; auto.
  change (set_root (add_child k v (root st)) (prepend l st))
    with (prepend l (set_root (add_child k v (root st)) st)).
  destruct (String.eqb k includeKey); auto.
  rewrite Hload.
  destruct (load (data v) _) as [st2|w st2|]; simpl; auto.
Qed.

Lemma Load_rec_prepend l fuel : forall p par st,
  Load_rec E T fuel p par (prepend l st) =
  map_state (prepend l) (Load_rec E T fuel p par st).
Proof.
  induction fuel as [|n IH]; intros p par st; [reflexivity|].
  rewrite !Load_rec_S. cbv zeta.
  change (depth (prepend l st)) with (depth st).
  change (set_depth (depth st + 1) (prepend l st))
    with (prepend l (set_depth (depth st + 1) st)).
  destruct (depth st + 1 >? depthLimit).
  { rewrite log_prepend. reflexivity. }
  destruct (effective_path E p par) as [eff|w]; [|reflexivity].
  destruct (fs_exists E eff) as [[|]|w]; [| |reflexivity].
  2:{ rewrite log_prepend. reflexivity. }
  destruct (Reader E T eff) as [subtree|w].
  2:{ rewrite !log_prepend. reflexivity. }
  rewrite log_prepend. apply merge_children_prepend.
  intros q s. apply IH.
Qed.

Lemma Load_prepend l p st :
  Load E T p (prepend l st) = map_state (prepend l) (Load E T p st).
Proof.
  rewrite !Load_initial.
  change (set_depth 0 (prepend l st)) with (prepend l (set_depth 0 st)).
  destruct (initial_parent E p); [apply Load_rec_prepend | reflexivity].
Qed.

Lemma prepend_new_loader st :
  prepend (diagnostic st) (set_depth (depth st) (new_loader (root st))) = st.
Proof. destruct st. unfold prepend. simpl. rewrite app_nil_r. reflexivity. Qed.

Lemma string_app_assoc (a b c : string) :
  ((a ++ b) ++ c = a ++ (b ++ c))%string.
Proof. induction a as [|x a IH]; simpl; [|rewrite IH]; reflexivity. Qed.

Lemma text_of_app a b : text_of (a ++ b) = (text_of a ++ text_of b)%string.
Proof.
  induction a as [|x a IH]; simpl; auto.
  rewrite IH, !string_app_assoc. reflexivity.
Qed.

(** *** Counting lines *)

Lemma count_app f a b : count f (a ++ b) = count f a + count f b.
Proof.
  unfold count. rewrite filter_app, length_app. lia.
Qed.

Lemma is_loading_loading eff : is_loading (loading_line eff) = true.
Proof.
  unfold is_loading, loading_line. simpl. destruct eff; reflexivity.
Qed.

(** At most [depthLimit] files are parsed while the counter runs from 0
    upwards. *)
Lemma Load_rec_loading_bound fuel p par st st' :
  final_state (Load_rec E T fuel p par st) = Some st' ->
  count is_loading (diagnostic st') - Z.min (depth st') 20
  <= count is_loading (diagnostic st) - Z.min (depth st) 20.
Proof.
  apply (Load_rec_invariant E T
           (fun a b =>
              count is_loading (diagnostic b) - Z.min (depth b) 20
              <= count is_loading (diagnostic a) - Z.min (depth a) 20));
    simpl; intros; rewrite ?count_app; unfold count in *; simpl;
    rewrite ?is_loading_loading; simpl; lia.
Qed.

End Log.

(* ===================================================================== *)
(** ** Tree and log grow together *)
(* ===================================================================== *)

Section Growth.

Variable E : Env.
Variable T : PtreeFileFormat.

Lemma grows_refl st : grows st st.
Proof.
  split; [apply extends_refl|]. exists []. rewrite app_nil_r. reflexivity.
Qed.

Lemma grows_trans a b c : grows a b -> grows b c -> grows a c.
Proof.
  intros [H1 [n1 Hn1]] [H2 [n2 Hn2]]. split.
  - eapply extends_trans; eauto.
  - exists (n1 ++ n2)%list. rewrite Hn2, Hn1, app_assoc. reflexivity.
Qed.

Lemma grows_log x st : grows st (log x st).
Proof. split; [apply extends_refl|]. exists [x]. reflexivity. Qed.

Lemma grows_set_depth n st : grows st (set_depth n st).
Proof.
  split; [apply extends_refl|]. exists []. simpl.
  rewrite app_nil_r. reflexivity.
Qed.

Lemma grows_add k v st : grows st (set_root (add_child k v (root st)) st).
Proof.
  split; [apply add_child_extends|]. exists []. simpl.
  rewrite app_nil_r. reflexivity.
Qed.

Lemma Load_rec_grows fuel p par st st' :
  final_state (Load_rec E T fuel p par st) = Some st' -> grows st st'.
Proof.
  apply (Load_rec_invariant E T grows); intros;
    eauto using grows_refl, grows_trans, grows_log, grows_set_depth,
      grows_add.
Qed.

Lemma merge_children_grows n dir kvs st st' :
  final_state
    (merge_children (fun q s => Load_rec E T n q dir s) kvs st) = Some st' ->
  grows st st'.
Proof.
  apply (merge_children_invariant grows);
    eauto using grows_refl, grows_trans, grows_add.
  intros q s s'. apply Load_rec_grows.
Qed.

Lemma Load_grows p st st' :
  final_state (Load E T p st) = Some st' -> grows st st'.
Proof.
  intros H.
  apply (Load_invariant E T grows) in H;
    eauto using grows_refl, grows_trans, grows_log, grows_set_depth,
      grows_add.
Qed.

(** The state in which a sequenced computation ends goes through the state
    its first part returned, or is the state its first part raised in. *)
Lemma final_state_then (o : outcome) (k : PtreeLoader -> outcome) st' :
  final_state (match o with
               | Returned s => k s
               | Raised w s => Raised w s
               | OutOfFuel => OutOfFuel
               end) = Some st' ->
  (exists s, o = Returned s /\ final_state (k s) = Some st') \/
  (exists w, o = Raised w st').
Proof.
  destruct o as [s|w s|]; simpl; intros H.
  - left; eauto.
  - right; inversion H; subst; eauto.
  - discriminate.
Qed.

(** What the first child of a merge loop adds stays. *)
Lemma merge_children_head_grows n dir k v rest st st' :
  final_state
    (merge_children (fun q s => Load_rec E T n q dir s) ((k, v) :: rest) st)
  = Some st' ->
  grows (set_root (add_child k v (root st)) st) st'.
Proof.
  simpl. destruct (String.eqb k includeKey).
  - intros H. apply final_state_then in H as [(s & Hs & Hk) | (w & Hw)].
    + eapply grows_trans; [eapply Load_rec_grows; rewrite Hs; reflexivity|].
      eapply merge_children_grows; eassumption.
    + eapply Load_rec_grows. rewrite Hw. reflexivity.
  - apply merge_children_grows.
Qed.

(** A step that passes the limit streams, before anything else, the line
    about its effective path. *)
Lemma Load_rec_first_line n p par st eff found st' :
  depth st < 20 ->
  effective_path E p par = FsOk eff ->
  fs_exists E eff = FsOk found ->
  final_state (Load_rec E T (S n) p par st) = Some st' ->
  grows (log (step_line found eff) (set_depth (depth st + 1) st)) st'.
Proof.
  intros Hd He Hx. rewrite Load_rec_S. cbv zeta.
  rewrite within_limit, He, Hx by assumption.
  destruct found; simpl step_line.
  - destruct (Reader E T eff) as [subtree|w].
    + apply merge_children_grows.
    + intros H; inversion H; subst. apply grows_log.
  - intros H; inversion H; subst. apply grows_refl.
Qed.

(** The including step and the first line of the step it requests. *)
Lemma include_step_grows n pA parA effA dA pre v post effB found st st' :
  depth st < 19 ->
  effective_path E pA parA = FsOk effA ->
  fs_exists E effA = FsOk true ->
  Reader E T effA = ReadOk (Node dA (pre ++ (includeKey, v) :: post)) ->
  no_include pre = true ->
  effective_path E (data v) (parent_path E effA) = FsOk effB ->
  fs_exists E effB = FsOk found ->
  final_state (Load_rec E T (S (S n)) pA parA st) = Some st' ->
  grows {| root := push_back includeKey v (add_children pre (root st));
           diagnostic :=
             diagnostic st ++ [loading_line effA; step_line found effB];
           depth := depth st + 2 |} st'.
Proof.
  intros Hd HeA HxA HrA Hpre HeB HxB H.
  rewrite (Load_rec_parsed E T _ pA parA st effA _ ltac:(lia) HeA HxA HrA)
    in H.
  simpl children in H.
  rewrite merge_children_app, merge_children_no_include in H by assumption.
  rewrite merge_children_include in H.
  set (st3 := set_root _ _) in H.
  assert (Hfirst : forall s,
             final_state (Load_rec E T (S n) (data v) (parent_path E effA) st3)
             = Some s ->
             grows {| root := push_back includeKey v
                                (add_children pre (root st));
                      diagnostic :=
                        diagnostic st
                        ++ [loading_line effA; step_line found effB];
                      depth := depth st + 2 |} s).
  { intros s Hs.
    apply (Load_rec_first_line n _ _ st3 effB found) in Hs;
      [|subst st3; simpl; lia|assumption|assumption].
    subst st3. unfold log, set_depth, set_root in Hs. simpl in Hs.
    rewrite <- app_assoc in Hs. simpl in Hs.
    replace (depth st + 1 + 1) with (depth st + 2) in Hs by lia.
    exact Hs. }
  apply final_state_then in H as [(s2 & Hs2 & Hk) | (w2 & Hw2)].
  - eapply grows_trans; [apply Hfirst; rewrite Hs2; reflexivity|].
    eapply merge_children_grows; eassumption.
  - apply Hfirst. rewrite Hw2. reflexivity.
Qed.

End Growth.

(* ===================================================================== *)
(** ** Failed branches (C9) *)
(* ===================================================================== *)

(** C9.  A resolution step that the depth limit lets through, for a root
    or an included file alike, and whose effective path is [eff]:
    - if [eff] does not exist, the step returns having streamed the one line
      [Path not found: eff], with the destination tree as it was;
    - if [eff] exists and the parser throws with message [w], the step
      returns having streamed [Loading: eff] and [Error: w], with the
      destination tree as it was;
    - inside the merge loop of an including file, a missing include target
      costs nothing but its line: the loop goes on with the remaining
      children from the tree holding all earlier merges and the include
      line itself. *)
Theorem failed_branch_leaves_tree (E : Env) (T : PtreeFileFormat)
        (n : nat) (p par eff : string) (st : PtreeLoader) :
  depth st < 20 ->
  effective_path E p par = FsOk eff ->
  (fs_exists E eff = FsOk false ->
   Load_rec E T (S n) p par st =
   Returned {| root := root st;
               diagnostic := diagnostic st ++ [not_found_line eff];
               depth := depth st + 1 |}) /\
  (forall w, fs_exists E eff = FsOk true -> Reader E T eff = ReadError w ->
   Load_rec E T (S n) p par st =
   Returned {| root := root st;
               diagnostic :=
                 diagnostic st ++ [loading_line eff; error_line w];
               depth := depth st + 1 |}) /\
  (forall v rest, data v = p -> fs_exists E eff = FsOk false ->
   merge_children (fun q s => Load_rec E T (S n) q par s)
     ((includeKey, v) :: rest) st =
   merge_children (fun q s => Load_rec E T (S n) q par s) rest
     {| root := push_back includeKey v (root st);
        diagnostic := diagnostic st ++ [not_found_line eff];
        depth := depth st + 1 |}).
Proof.
  intros Hd He. repeat split.
  - intros Hx. rewrite (Load_rec_not_found E T n p par st eff); auto.
  - intros w Hx Hr.
    rewrite (Load_rec_parse_error E T n p par st eff w); auto.
    unfold log, set_depth; simpl. rewrite <- app_assoc. reflexivity.
  - intros v rest Hv Hx. rewrite merge_children_include, Hv.
    rewrite (Load_rec_not_found E T n p par _ eff); auto.
Qed.

Lemma failed_branch_leaves_tree_witness :
  let E := Posix.env "/cfg" Examples.files_bad in
  let st := new_loader (object [leaf "x" "1"]) in
  Load_rec E json 1 "missing.json" "/cfg" st =
  Returned {| root := object [leaf "x" "1"];
              diagnostic := ["Path not found: /cfg/missing.json"];
              depth := 1 |} /\
  Load_rec E json 1 "bad.json" "/cfg" st =
  Returned {| root := object [leaf "x" "1"];
              diagnostic := ["Loading: /cfg/bad.json";
                             "Error: /cfg/bad.json(1): expected value"];
              depth := 1 |}.
Proof.
  split.
  - apply (failed_branch_leaves_tree
             (Posix.env "/cfg" Examples.files_bad) json 0
             "missing.json" "/cfg" "/cfg/missing.json"
             (new_loader (object [leaf "x" "1"])));
      [simpl; lia | reflexivity | reflexivity].
  - apply (failed_branch_leaves_tree
             (Posix.env "/cfg" Examples.files_bad) json 0
             "bad.json" "/cfg" "/cfg/bad.json"
             (new_loader (object [leaf "x" "1"])));
      [simpl; lia | reflexivity | reflexivity | reflexivity].
Defined.

(* ===================================================================== *)
(** ** The depth limit (C4) *)
(* ===================================================================== *)

Section Chains.

Variable E : Env.
Variable T : PtreeFileFormat.

Lemma is_chain_firstn k : forall p par links,
  is_chain E T p par links -> is_chain E T p par (firstn k links).
Proof.
  induction k as [|k IH]; intros p par [|l rest] H; simpl; auto.
  destruct H as (H1 & H2 & H3 & H4 & H5 & H6). repeat split; auto.
Qed.

(** A chain that is as long as the counter has room for: every file of it
    is merged and the include line of the last one meets the limit. *)
Lemma chain_run links : forall fuel p par st,
  is_chain E T p par links ->
  depth st + Z.of_nat (length links) = 20 ->
  (length links < fuel)%nat ->
  Load_rec E T fuel p par st =
  Returned {| root := add_children (chain_merge links) (root st);
              diagnostic :=
                diagnostic st
                ++ map (fun l => loading_line (link_path l)) links
                ++ [loop_line];
              depth := 21 |}.
Proof.
  induction links as [|l rest IH]; intros fuel p par st Hc Hd Hf;
    simpl in Hd, Hf; (destruct fuel as [|n]; [lia|]).
  - rewrite Load_rec_limit by lia.
    unfold log, set_depth; simpl. repeat f_equal. lia.
  - destruct Hc as (He & Hx & [d Hr] & Hpre & Hpost & Hrest).
    rewrite (Load_rec_parsed E T n p par st _ _ ltac:(lia) He Hx Hr).
    simpl children.
    rewrite merge_children_app, merge_children_no_include by assumption.
    rewrite merge_children_include.
    rewrite (IH n _ _ _ Hrest) by (simpl; lia).
    rewrite merge_children_no_include by assumption.
    unfold set_root, log, set_depth; simpl.
    rewrite !add_children_app. simpl.
    rewrite add_child_includeKey, add_children_app.
    rewrite <- !app_assoc. reflexivity.
Qed.

End Chains.

(** C4.  For every file system, parser and format:
    - a step entered once the counter has reached 20 increments it, streams
      the loop line and returns: the tree is untouched and no file is looked
      at;
    - every step, however it ends, leaves the counter at least one higher;
    - [Load] always ends: with the fuel of the model it returns or raises,
      on every input, cyclic include graphs included;
    - for a chain of more than 20 files, each including the next, [Load]
      returns having merged exactly the first 20 files and streamed their
      20 [Loading] lines followed by one loop line. *)
Theorem depth_limit_bounds_session (E : Env) (T : PtreeFileFormat) :
  (forall n p par st,
      20 <= depth st ->
      Load_rec E T (S n) p par st =
      Returned {| root := root st;
                  diagnostic := diagnostic st ++ [loop_line];
                  depth := depth st + 1 |}) /\
  (forall fuel p par st st',
      final_state (Load_rec E T fuel p par st) = Some st' ->
      depth st + 1 <= depth st') /\
  (forall p st, exists st', final_state (Load E T p st) = Some st') /\
  (forall p par links st,
      initial_parent E p = FsOk par ->
      is_chain E T p par links ->
      (20 < length links)%nat ->
      Load E T p st =
      Returned {| root :=
                    add_children (chain_merge (firstn 20 links)) (root st);
                  diagnostic :=
                    diagnostic st
                    ++ map (fun l => loading_line (link_path l))
                         (firstn 20 links)
                    ++ [loop_line];
                  depth := 21 |}).
Proof.
  repeat split.
  - intros. apply Load_rec_limit; assumption.
  - intros fuel p par st st'. apply Load_rec_depth_incr.
  - intros. apply Load_final_state.
  - intros p par links st Hpar Hc Hlen.
    rewrite Load_initial, Hpar.
    rewrite (chain_run E T (firstn 20 links) enough_fuel p par
               (set_depth 0 st)).
    + reflexivity.
    + apply is_chain_firstn; assumption.
    + rewrite length_firstn. unfold set_depth. cbn [depth]. lia.
    + rewrite length_firstn. unfold enough_fuel. lia.
Qed.

Lemma depth_limit_bounds_session_witness :
  let E := Posix.env "/cfg" (Examples.files_chain 25) in
  Load E json "f0.json" (new_loader empty_ptree) =
  Returned
    {| root :=
         add_children
           (chain_merge (firstn 20 (Examples.chain_links 25))) empty_ptree;
       diagnostic :=
         map (fun l => loading_line (link_path l))
           (firstn 20 (Examples.chain_links 25))
         ++ [loop_line];
       depth := 21 |}.
Proof.
  apply (proj2 (proj2 (proj2
           (depth_limit_bounds_session
              (Posix.env "/cfg" (Examples.files_chain 25)) json)))
           "f0.json" "/cfg" (Examples.chain_links 25)
           (new_loader empty_ptree)).
  - reflexivity.
  - vm_compute. repeat first [exact I | split | reflexivity | eexists].
  - vm_compute. lia.
Defined.

(* ===================================================================== *)
(** ** What reaches the caller (C1) *)
(* ===================================================================== *)

Section Exceptions.

Variable E : Env.
Variable T : PtreeFileFormat.
Hypothesis fs_ok : fs_never_fails E.

Lemma merge_children_never_raises load kvs :
  (forall q s w s', load q s <> Raised w s') ->
  forall st w s', merge_children load kvs st <> Raised w s'.
Proof.
  intros Hload. induction kvs as [|[k v] r IH]; intros st w s'; simpl;
    [discriminate|].
  destruct (String.eqb k includeKey); auto.
  destruct (load (data v) _) as [st2|w2 s2|] eqn:Hl; auto.
  - exfalso. revert Hl. apply Hload.
  - discriminate.
Qed.

Lemma Load_rec_never_raises fuel : forall p par st w s',
  Load_rec E T fuel p par st <> Raised w s'.
Proof.
  destruct fs_ok as (_ & Hwc & Hex).
  induction fuel as [|n IH]; intros p par st w s'; [discriminate|].
  rewrite Load_rec_S. cbv zeta.
  destruct (depth st + 1 >? depthLimit); [discriminate|].
  unfold effective_path.
  destruct (Hwc (joined E p par)) as [eff ->].
  destruct (Hex eff) as [b ->].
  destruct b; [|discriminate].
  destruct (Reader E T eff); [|discriminate].
  apply merge_children_never_raises. intros q s. apply IH.
Qed.

Lemma Load_returns p st : exists st', Load E T p st = Returned st'.
Proof.
  destruct (Load E T p st) as [s|w s|] eqn:H; eauto; exfalso; revert H.
  - rewrite Load_initial. unfold initial_parent.
    destruct fs_ok as ([cwd ->] & _ & _).
    destruct (negb (is_absolute E p)); apply Load_rec_never_raises.
  - apply Load_total.
Qed.

End Exceptions.




(* ===================================================================== *)
(** ** What a second [Load] finds (C3) *)
(* ===================================================================== *)

(** C3, as the code has it.  [Load] assigns 0 to the depth counter, so the
    value an earlier call left has no effect.  It does not touch the
    diagnostic stream: what the call leaves is the earlier log followed by
    the lines a fresh loader over the same tree would have produced, and
    [DumpDiag] shows both. *)
Theorem Load_resets_depth_keeps_log (E : Env) (T : PtreeFileFormat)
        (p : string) (st : PtreeLoader) :
  (forall d, Load E T p (set_depth d st) = Load E T p st) /\
  Load E T p st =
  map_state (prepend (diagnostic st))
    (Load E T p (new_loader (root st))) /\
  exists st' fresh,
    final_state (Load E T p st) = Some st' /\
    final_state (Load E T p (new_loader (root st))) = Some fresh /\
    diagnostic st' = (diagnostic st ++ diagnostic fresh)%list /\
    DumpDiag st' =
    (delim ++ newline ++ diagnostic_str st ++ diagnostic_str fresh
     ++ delim ++ newline)%string.
Proof.
  assert (Hframe : Load E T p st =
                   map_state (prepend (diagnostic st))
                     (Load E T p (new_loader (root st)))).
  { rewrite <- Load_prepend.
    change (prepend (diagnostic st) (new_loader (root st)))
      with (set_depth 0 (prepend (diagnostic st) (new_loader (root st)))).
    rewrite <- (prepend_new_loader st) at 1.
    unfold Load. reflexivity. }
  split; [reflexivity|]. split; [exact Hframe|].
  destruct (Load_final_state E T p (new_loader (root st))) as [fresh Hf].
  exists (prepend (diagnostic st) fresh), fresh.
  assert (Hst : final_state (Load E T p st)
                = Some (prepend (diagnostic st) fresh)).
  { rewrite Hframe.
    destruct (Load E T p (new_loader (root st))); simpl in *;
      inversion Hf; subst; reflexivity. }
  repeat split; auto.
  unfold DumpDiag, diagnostic_str. simpl diagnostic.
  rewrite text_of_app, !string_app_assoc. reflexivity.
Qed.

(** C3 as stated fails: the line of an earlier [Load] of a missing file is
    still in the log, and in the dump, after a later [Load]. *)
Lemma earlier_lines_survive_a_later_Load :
  let E := Posix.env "/cfg" Examples.files_ab in
  let earlier :=
    {| root := empty_ptree;
       diagnostic := ["Path not found: /cfg/missing.json"];
       depth := 1 |} in
  Load E json "missing.json" (new_loader empty_ptree) = Returned earlier /\
  Load E json "b.json" earlier =
  Returned {| root := object [leaf "y" "2"];
              diagnostic := ["Path not found: /cfg/missing.json";
                             "Loading: /cfg/b.json"];
              depth := 1 |} /\
  DumpDiag {| root := object [leaf "y" "2"];
              diagnostic := ["Path not found: /cfg/missing.json";
                             "Loading: /cfg/b.json"];
              depth := 1 |}
  = (delim ++ newline ++ "Path not found: /cfg/missing.json" ++ newline
     ++ "Loading: /cfg/b.json" ++ newline ++ delim ++ newline)%string.
Proof. vm_compute. repeat split. Qed.

(* ===================================================================== *)
(** ** Where the include key is looked for (C2) *)
(* ===================================================================== *)

(** C2, as the code has it.  The loop of lines 137-147 runs over the
    immediate children of the parsed file and compares their keys with the
    include key; it never looks inside a child.  For a file that exists and
    parses, in a step the limit lets through:
    - if no immediate child has the include key, the step merges the
      children, streams the one [Loading] line and returns: no other file
      is requested, whatever the children hold further down;
    - if the first immediate child with the include key is [(key, v)], the
      step pushes it like any other child and then requests the file named
      by [v]'s data from the directory of the including file, before going
      on with the children after it. *)
Theorem include_key_only_among_immediate_children
        (E : Env) (T : PtreeFileFormat) (n : nat) (p par eff d : string)
        (kvs : list (string * ptree)) (st : PtreeLoader) :
  depth st < 20 ->
  effective_path E p par = FsOk eff ->
  fs_exists E eff = FsOk true ->
  Reader E T eff = ReadOk (Node d kvs) ->
  (no_include kvs = true ->
   Load_rec E T (S n) p par st =
   Returned {| root := add_children kvs (root st);
               diagnostic := diagnostic st ++ [loading_line eff];
               depth := depth st + 1 |}) /\
  (forall pre v post,
      kvs = pre ++ (includeKey, v) :: post ->
      no_include pre = true ->
      Load_rec E T (S n) p par st =
      match
        Load_rec E T n (data v) (parent_path E eff)
          {| root := push_back includeKey v (add_children pre (root st));
             diagnostic := diagnostic st ++ [loading_line eff];
             depth := depth st + 1 |}
      with
      | Returned st2 =>
          merge_children (fun q s => Load_rec E T n q (parent_path E eff) s)
            post st2
      | Raised w s => Raised w s
      | OutOfFuel => OutOfFuel
      end).
Proof.
  intros Hd He Hx Hr.
  rewrite (Load_rec_parsed E T n p par st eff _ Hd He Hx Hr). simpl children.
  split.
  - intros Hno. rewrite merge_children_no_include by assumption. reflexivity.
  - intros pre v post -> Hno.
    rewrite merge_children_app, merge_children_no_include by assumption.
    rewrite merge_children_include. reflexivity.
Qed.

Lemma include_key_only_among_immediate_children_witness :
  let E := Posix.env "/cfg" Examples.files_nested in
  Load_rec E json 1 "a.json" "/cfg" (new_loader empty_ptree) =
  Returned
    {| root := add_children [("sub", object [leaf includeKey "b.json"])]
                 empty_ptree;
       diagnostic := [loading_line "/cfg/a.json"];
       depth := 1 |}.
Proof.
  apply (proj1 (include_key_only_among_immediate_children
                  (Posix.env "/cfg" Examples.files_nested) json 0
                  "a.json" "/cfg" "/cfg/a.json" ""
                  [("sub", object [leaf includeKey "b.json"])]
                  (new_loader empty_ptree)
                  ltac:(simpl; lia) eq_refl eq_refl eq_refl)).
  reflexivity.
Defined.

(** C2 as stated fails: in [a.json] the include key sits one level below
    the top; [b.json] exists beside it and holds [y], yet [Load] reads
    [a.json] alone and copies the key as data. *)
Lemma nested_include_key_is_not_followed :
  let E := Posix.env "/cfg" Examples.files_nested in
  fs_exists E "/cfg/b.json" = FsOk true /\
  Load E json "a.json" (new_loader empty_ptree) =
  Returned {| root := object [("sub", object [leaf "IncludeFile" "b.json"])];
              diagnostic := ["Loading: /cfg/a.json"];
              depth := 1 |}.
Proof. vm_compute. split; reflexivity. Qed.

(* ===================================================================== *)
(** ** Effective paths (C5) *)
(* ===================================================================== *)

(** C5.  The first line a step streams names its effective path, so the
    log shows how paths were resolved.
    - Root file, relative path: the path is appended to the current working
      directory and canonicalised.
    - Root file, absolute path: the path itself is canonicalised.
    - Include line, at any nesting depth the limit allows (the including
      step starts from any state and any directory): a relative value is
      appended to the directory of the including file's effective path, an
      absolute one is taken as it is, and the result is canonicalised; the
      working directory plays no part.  This is stated for the first
      include line of a file and then for an include line at any position:
      once the children before it are merged, whatever include lines they
      held, and the counter is still below 20, the next line streamed
      names the path resolved from the including file's directory.
    In each case the canonical path is computed before the existence check
    and is the one reported when the file does not exist. *)
Theorem include_paths_resolve_from_including_file
        (E : Env) (T : PtreeFileFormat) :
  (forall p cwd eff found st,
      is_absolute E p = false ->
      current_path E = FsOk cwd ->
      weakly_canonical E (path_append E cwd p) = FsOk eff ->
      fs_exists E eff = FsOk found ->
      exists st' rest,
        final_state (Load E T p st) = Some st' /\
        diagnostic st' = diagnostic st ++ step_line found eff :: rest) /\
  (forall p eff found st,
      is_absolute E p = true ->
      weakly_canonical E p = FsOk eff ->
      fs_exists E eff = FsOk found ->
      exists st' rest,
        final_state (Load E T p st) = Some st' /\
        diagnostic st' = diagnostic st ++ step_line found eff :: rest) /\
  (forall fuel pA parA effA dA pre v post effB found st,
      depth st < 19 ->
      21 <= Z.of_nat fuel + depth st ->
      effective_path E pA parA = FsOk effA ->
      fs_exists E effA = FsOk true ->
      Reader E T effA = ReadOk (Node dA (pre ++ (includeKey, v) :: post)) ->
      no_include pre = true ->
      weakly_canonical E
        (if is_absolute E (data v) then data v
         else path_append E (parent_path E effA) (data v)) = FsOk effB ->
      fs_exists E effB = FsOk found ->
      exists st' rest,
        final_state (Load_rec E T fuel pA parA st) = Some st' /\
        diagnostic st' =
        diagnostic st ++ loading_line effA :: step_line found effB :: rest) /\
  (forall n pA parA effA dA pre v post effB found st st3,
      depth st < 20 ->
      21 <= Z.of_nat (S (S n)) + depth st ->
      effective_path E pA parA = FsOk effA ->
      fs_exists E effA = FsOk true ->
      Reader E T effA = ReadOk (Node dA (pre ++ (includeKey, v) :: post)) ->
      merge_children (fun q s => Load_rec E T (S n) q (parent_path E effA) s)
        pre (log (loading_line effA) (set_depth (depth st + 1) st))
      = Returned st3 ->
      depth st3 < 20 ->
      weakly_canonical E
        (if is_absolute E (data v) then data v
         else path_append E (parent_path E effA) (data v)) = FsOk effB ->
      fs_exists E effB = FsOk found ->
      exists st' rest,
        final_state (Load_rec E T (S (S n)) pA parA st) = Some st' /\
        diagnostic st' = diagnostic st3 ++ step_line found effB :: rest).
Proof.
  assert (Hroot : forall p par eff found st,
             initial_parent E p = FsOk par ->
             effective_path E p par = FsOk eff ->
             fs_exists E eff = FsOk found ->
             exists st' rest,
               final_state (Load E T p st) = Some st' /\
               diagnostic st' = diagnostic st ++ step_line found eff :: rest).
  { intros p par eff found st Hpar He Hx.
    destruct (Load_final_state E T p st) as [st' H]. exists st'.
    pose proof H as H'. rewrite Load_initial, Hpar in H'.
    apply (Load_rec_first_line E T _ _ _ _ eff found) in H';
      [|simpl; lia|assumption|assumption].
    destruct H' as [_ [new Hnew]]. exists new. split; [assumption|].
    rewrite Hnew. simpl. rewrite <- app_assoc. reflexivity. }
  repeat split.
  - intros p cwd eff found st Hrel Hcwd Hwc Hx.
    apply (Hroot p cwd); auto.
    + unfold initial_parent. rewrite Hrel. assumption.
    + unfold effective_path, joined. rewrite Hrel. assumption.
  - intros p eff found st Habs Hwc Hx.
    apply (Hroot p ""); auto.
    + unfold initial_parent. rewrite Habs. reflexivity.
    + unfold effective_path, joined. rewrite Habs. assumption.
  - intros fuel pA parA effA dA pre v post effB found st
           Hd Hfuel HeA HxA HrA Hpre HeB HxB.
    destruct fuel as [|[|n]]; try lia.
    destruct (final_state (Load_rec E T (S (S n)) pA parA st))
      as [st'|] eqn:H.
    + exists st'.
      apply (include_step_grows E T n pA parA effA dA pre v post effB found)
        in H; auto.
      destruct H as [_ [new Hnew]]. exists new. split; [reflexivity|].
      rewrite Hnew. simpl. rewrite <- app_assoc. reflexivity.
    + exfalso.
      destruct (Load_rec E T (S (S n)) pA parA st) eqn:Hout;
        try discriminate.
      revert Hout. apply Load_rec_total; lia.
  - intros n pA parA effA dA pre v post effB found st st3
           Hd Hfuel HeA HxA HrA Hpre Hd3 HeB HxB.
    destruct (final_state (Load_rec E T (S (S n)) pA parA st))
      as [st'|] eqn:H.
    + exists st'.
      rewrite (Load_rec_parsed E T _ pA parA st effA _ Hd HeA HxA HrA) in H.
      cbn [children] in H.
      rewrite merge_children_app, Hpre, merge_children_include in H.
      assert (Hfirst : forall s,
                 final_state
                   (Load_rec E T (S n) (data v) (parent_path E effA)
                      (set_root (push_back includeKey v (root st3)) st3))
                 = Some s ->
                 exists rest,
                   diagnostic s
                   = diagnostic st3 ++ step_line found effB :: rest).
      { intros s Hs.
        apply (Load_rec_first_line E T n _ _ _ effB found) in Hs;
          [|cbn [set_root depth]; assumption|exact HeB|exact HxB].
        destruct Hs as [_ [new Hnew]]. exists new.
        rewrite Hnew. cbn [log set_depth set_root diagnostic].
        rewrite <- app_assoc. reflexivity. }
      apply final_state_then in H as [(s2 & Hs2 & Hk) | (w2 & Hw2)].
      * destruct (Hfirst s2) as [rest Hrest]; [rewrite Hs2; reflexivity|].
        apply merge_children_grows in Hk. destruct Hk as [_ [new Hnew]].
        exists (rest ++ new). split; [reflexivity|].
        rewrite Hnew, Hrest, <- app_assoc. reflexivity.
      * destruct (Hfirst st') as [rest Hrest]; [rewrite Hw2; reflexivity|].
        exists rest. split; [reflexivity|assumption].
    + exfalso.
      destruct (Load_rec E T (S (S n)) pA parA st) eqn:Hout;
        try discriminate.
      revert Hout. apply Load_rec_total; lia.
Qed.

Lemma include_paths_resolve_from_including_file_witness :
  let E := Posix.env "/work" Examples.files_dirs in
  let st1 := {| root := object [leaf includeKey "sub/b.json"];
                diagnostic := ["Loading: /cfg/a.json"];
                depth := 1 |} in
  (exists st' rest,
      final_state (Load E json "a.json" (new_loader empty_ptree)) = Some st' /\
      diagnostic st' = [] ++ step_line false "/work/a.json" :: rest) /\
  (exists st' rest,
      final_state (Load_rec E json 20 "sub/b.json" "/cfg" st1) = Some st' /\
      diagnostic st' =
      ["Loading: /cfg/a.json"]
      ++ loading_line "/cfg/sub/b.json"
         :: step_line true "/cfg/sub/c.json" :: rest) /\
  (exists st' rest,
      final_state
        (Load_rec (Posix.env "/work" MoreExamples.files_two_includes) json 20
           "sub/b.json" "/cfg" st1) = Some st' /\
      diagnostic st' =
      ["Loading: /cfg/a.json"; "Loading: /cfg/sub/b.json";
       "Loading: /cfg/sub/c.json"]
      ++ step_line true "/cfg/sub/d.json" :: rest).
Proof.
  split; [|split].
  - apply (proj1 (include_paths_resolve_from_including_file
                    (Posix.env "/work" Examples.files_dirs) json)
             "a.json" "/work" "/work/a.json" false (new_loader empty_ptree));
      reflexivity.
  - apply (proj1 (proj2 (proj2 (include_paths_resolve_from_including_file
                                  (Posix.env "/work" Examples.files_dirs)
                                  json)))
             20%nat "sub/b.json" "/cfg" "/cfg/sub/b.json" "" []
             (Node "c.json" []) [] "/cfg/sub/c.json" true
             {| root := object [leaf includeKey "sub/b.json"];
                diagnostic := ["Loading: /cfg/a.json"];
                depth := 1 |});
      try reflexivity; simpl; lia.
  - apply (proj2 (proj2 (proj2 (include_paths_resolve_from_including_file
                                  (Posix.env "/work"
                                     MoreExamples.files_two_includes)
                                  json)))
             18%nat "sub/b.json" "/cfg" "/cfg/sub/b.json" ""
             [leaf includeKey "c.json"] (Node "d.json" []) []
             "/cfg/sub/d.json" true
             {| root := object [leaf includeKey "sub/b.json"];
                diagnostic := ["Loading: /cfg/a.json"];
                depth := 1 |}
             {| root := object [leaf includeKey "sub/b.json";
                                leaf includeKey "c.json"; leaf "z" "3"];
                diagnostic := ["Loading: /cfg/a.json";
                               "Loading: /cfg/sub/b.json";
                               "Loading: /cfg/sub/c.json"];
                depth := 3 |});
      try reflexivity; simpl; lia.
Defined.

(* ===================================================================== *)
(** ** Keys that hold the path separator (C6) *)
(* ===================================================================== *)

(** C6.  The loop of lines 137-141 means to add each pair of the file as a
    new child ("Add duplicate keys, don't replace"), and does so for keys
    without ['.'].  It calls [add_child], which takes the key as a path:
    for [dup.json] = [{"k.x":1,"k.x":2}] no child with the key [k.x] is
    added.  Loaded into the tree [{k=0}], the two pairs end up as children
    [x=1] and [x=2] of the existing child [k], whose subtree is thereby
    changed, and the destination has no new child at all; loaded into an
    empty tree, they end up below a single new child [k]. *)
Theorem dotted_duplicates_are_not_added_as_children :
  let E := Posix.env "/cfg" MoreExamples.files_dup in
  Reader E json "/cfg/dup.json"
  = ReadOk (Node "" [("k.x", Node "1" []); ("k.x", Node "2" [])]) /\
  Load E json "dup.json" (new_loader (Node "" [("k", Node "0" [])]))
  = Returned
      {| root :=
           Node "" [("k", Node "0" [("x", Node "1" []); ("x", Node "2" [])])];
         diagnostic := ["Loading: /cfg/dup.json"];
         depth := 1 |} /\
  Load E json "dup.json" (new_loader empty_ptree)
  = Returned
      {| root :=
           Node "" [("k", Node "" [("x", Node "1" []); ("x", Node "2" [])])];
         diagnostic := ["Loading: /cfg/dup.json"];
         depth := 1 |}.
Proof. vm_compute. repeat split. Qed.

(* ===================================================================== *)
(** ** The include line stays (C7) *)
(* ===================================================================== *)

Section Retained.

Variable E : Env.
Variable T : PtreeFileFormat.

(** A child of a parsed file, once merged, stays. *)
Lemma parsed_child_grows n p par st eff d pre k v post st' :
  depth st < 20 ->
  effective_path E p par = FsOk eff ->
  fs_exists E eff = FsOk true ->
  Reader E T eff = ReadOk (Node d (pre ++ (k, v) :: post)) ->
  no_include pre = true ->
  final_state (Load_rec E T (S n) p par st) = Some st' ->
  grows {| root := add_child k v (add_children pre (root st));
           diagnostic := diagnostic st ++ [loading_line eff];
           depth := depth st + 1 |} st'.
Proof.
  intros Hd He Hx Hr Hpre H.
  rewrite (Load_rec_parsed E T n p par st eff _ Hd He Hx Hr) in H.
  simpl children in H.
  rewrite merge_children_app, merge_children_no_include in H by assumption.
  apply merge_children_head_grows in H. exact H.
Qed.

Lemma include_then_child_grows n pA parA effA dA pre v post
      effB dB preB K vK postB st st' :
  depth st < 19 ->
  effective_path E pA parA = FsOk effA ->
  fs_exists E effA = FsOk true ->
  Reader E T effA = ReadOk (Node dA (pre ++ (includeKey, v) :: post)) ->
  no_include pre = true ->
  effective_path E (data v) (parent_path E effA) = FsOk effB ->
  fs_exists E effB = FsOk true ->
  Reader E T effB = ReadOk (Node dB (preB ++ (K, vK) :: postB)) ->
  no_include preB = true ->
  final_state (Load_rec E T (S (S n)) pA parA st) = Some st' ->
  grows {| root :=
             add_child K vK
               (add_children preB
                  (push_back includeKey v (add_children pre (root st))));
           diagnostic :=
             diagnostic st ++ [loading_line effA; loading_line effB];
           depth := depth st + 2 |} st'.
Proof.
  intros Hd HeA HxA HrA Hpre HeB HxB HrB HpreB H.
  rewrite (Load_rec_parsed E T _ pA parA st effA _ ltac:(lia) HeA HxA HrA)
    in H.
  simpl children in H.
  rewrite merge_children_app, merge_children_no_include in H by assumption.
  rewrite merge_children_include in H.
  set (st3 := set_root _ _) in H.
  assert (HB : forall s,
             final_state (Load_rec E T (S n) (data v) (parent_path E effA) st3)
             = Some s ->
             grows {| root :=
                        add_child K vK
                          (add_children preB
                             (push_back includeKey v
                                (add_children pre (root st))));
                      diagnostic :=
                        diagnostic st
                        ++ [loading_line effA; loading_line effB];
                      depth := depth st + 2 |} s).
  { intros s Hs.
    apply (parsed_child_grows n _ _ st3 effB dB preB K vK postB) in Hs;
      auto; [|subst st3; simpl; lia].
    subst st3. unfold log, set_depth, set_root in Hs. simpl in Hs.
    rewrite <- app_assoc in Hs. simpl in Hs.
    replace (depth st + 1 + 1) with (depth st + 2) in Hs by lia.
    exact Hs. }
  apply final_state_then in H as [(s2 & Hs2 & Hk) | (w2 & Hw2)].
  - eapply grows_trans; [apply HB; rewrite Hs2; reflexivity|].
    eapply merge_children_grows; eassumption.
  - apply HB. rewrite Hw2. reflexivity.
Qed.

End Retained.

(** C7.  Let the root file A exist and parse, with an include line among
    its immediate children (the first such line), and let the file B that
    line names, resolved from A's directory, exist and parse with a child
    [(K, vK)] that no include line precedes.  Then [Load] of A ends in a
    state whose tree extends the tree built by merging A's children up to
    the include line, pushing the include line itself as a new last child,
    merging B's children up to [K] and adding [(K, vK)].  So the include
    line is in the tree with B's path as its data, [K] is in the tree at
    the place its key names, and the log continues with [Loading: A],
    [Loading: B].
    In the scenario of the specification the result is exactly [x = 1],
    [IncludeFile = b.json], [y = 2], in that order, with the two [Loading]
    lines. *)
Theorem include_line_is_retained :
  (forall E T p par st effA dA pre v post effB dB preB K vK postB,
      initial_parent E p = FsOk par ->
      effective_path E p par = FsOk effA ->
      fs_exists E effA = FsOk true ->
      Reader E T effA = ReadOk (Node dA (pre ++ (includeKey, v) :: post)) ->
      no_include pre = true ->
      effective_path E (data v) (parent_path E effA) = FsOk effB ->
      fs_exists E effB = FsOk true ->
      Reader E T effB = ReadOk (Node dB (preB ++ (K, vK) :: postB)) ->
      no_include preB = true ->
      exists st' rest,
        final_state (Load E T p st) = Some st' /\
        extends
          (add_child K vK
             (add_children preB
                (push_back includeKey v (add_children pre (root st)))))
          (root st') /\
        (exists c, In (includeKey, c) (children (root st')) /\
                   data c = data v /\ extends v c) /\
        located (fragments K) vK (root st') /\
        diagnostic st' =
        diagnostic st ++ loading_line effA :: loading_line effB :: rest) /\
  Load (Posix.env "/cfg" Examples.files_ab) json "a.json"
    (new_loader empty_ptree)
  = Returned
      {| root := object [leaf "x" "1"; leaf "IncludeFile" "b.json";
                         leaf "y" "2"];
         diagnostic := ["Loading: /cfg/a.json"; "Loading: /cfg/b.json"];
         depth := 2 |}.
Proof.
  split; [|vm_compute; reflexivity].
  intros E T p par st effA dA pre v post effB dB preB K vK postB
         Hpar HeA HxA HrA Hpre HeB HxB HrB HpreB.
  destruct (Load_final_state E T p st) as [st' H]. exists st'.
  pose proof H as H'. rewrite Load_initial, Hpar in H'.
  apply (include_then_child_grows E T _ p par effA dA pre v post
           effB dB preB K vK postB) in H'; auto; [|simpl; lia].
  destruct H' as [Hext [new Hnew]]. simpl in Hext, Hnew.
  exists new. split; [assumption|]. split; [assumption|].
  assert (Hinc : located [includeKey] v (root st')).
  { eapply located_extends; [exact Hext|].
    eapply located_extends; [apply add_child_extends|].
    eapply located_extends; [apply add_children_extends|].
    simpl. exists v. split; [|apply extends_refl].
    apply in_or_app. right. simpl. auto. }
  repeat split.
  - destruct Hinc as (c & Hin & Hc). exists c.
    repeat split; auto. symmetry. apply extends_same_data. exact Hc.
  - eapply located_extends; [exact Hext|]. apply add_child_located.
  - rewrite Hnew, <- app_assoc. reflexivity.
Qed.

Lemma include_line_is_retained_witness :
  exists st' rest,
    final_state (Load (Posix.env "/cfg" Examples.files_ab) xml "/cfg/a.json"
                   (new_loader (object [leaf "w" "0"]))) = Some st' /\
    extends
      (add_child "y" (Node "2" [])
         (add_children []
            (push_back includeKey (Node "b.json" [])
               (add_children [leaf "x" "1"] (object [leaf "w" "0"])))))
      (root st') /\
    (exists c, In (includeKey, c) (children (root st')) /\
               data c = "b.json" /\ extends (Node "b.json" []) c) /\
    located (fragments "y") (Node "2" []) (root st') /\
    diagnostic st' =
    [] ++ loading_line "/cfg/a.json" :: loading_line "/cfg/b.json" :: rest.
Proof.
  apply (proj1 include_line_is_retained
           (Posix.env "/cfg" Examples.files_ab) xml "/cfg/a.json" ""
           (new_loader (object [leaf "w" "0"]))
           "/cfg/a.json" "" [leaf "x" "1"] (Node "b.json" []) []
           "/cfg/b.json" "" [] "y" (Node "2" []) []);
    reflexivity.
Defined.

(* ===================================================================== *)
(** ** One file without include line (C8) *)
(* ===================================================================== *)

(** C8, as the code has it.  Let the requested file exist and parse to the
    tree [t], and let the keys of [t]'s immediate children be free of the
    include key and of the path separator.  Then [Load] returns with
    [t]'s children appended, in order and with duplicates, to those of the
    destination tree; starting from an empty tree the destination's
    children are exactly [t]'s.  The data of [t]'s root is not copied:
    only children are merged. *)
Theorem single_file_children_are_merged_as_parsed
        (E : Env) (T : PtreeFileFormat) (p par eff : string) (t : ptree)
        (st : PtreeLoader) :
  initial_parent E p = FsOk par ->
  effective_path E p par = FsOk eff ->
  fs_exists E eff = FsOk true ->
  Reader E T eff = ReadOk t ->
  no_include (children t) = true ->
  plain_keys (children t) = true ->
  Load E T p st =
  Returned {| root := Node (data (root st))
                        (children (root st) ++ children t);
              diagnostic := diagnostic st ++ [loading_line eff];
              depth := 1 |} /\
  Load E T p (new_loader empty_ptree) =
  Returned {| root := Node "" (children t);
              diagnostic := [loading_line eff];
              depth := 1 |}.
Proof.
  intros Hpar He Hx Hr Hno Hplain.
  assert (H : forall s,
             Load E T p s =
             Returned {| root := Node (data (root s))
                                   (children (root s) ++ children t);
                         diagnostic := diagnostic s ++ [loading_line eff];
                         depth := 1 |}).
  { intros s. rewrite Load_initial, Hpar. change enough_fuel with (S 20).
    rewrite (Load_rec_parsed E T _ p par _ eff t); auto; [|simpl; lia].
    rewrite merge_children_no_include by assumption.
    unfold set_root, log, set_depth. simpl.
    rewrite add_children_plain by assumption. reflexivity. }
  split; [apply H|]. rewrite H. reflexivity.
Qed.

Lemma single_file_children_are_merged_as_parsed_witness :
  Load (Posix.env "/cfg" Examples.files_ab) info "b.json"
    (new_loader empty_ptree)
  = Returned {| root := Node "" [leaf "y" "2"];
                diagnostic := [loading_line "/cfg/b.json"];
                depth := 1 |}.
Proof.
  apply (proj2 (single_file_children_are_merged_as_parsed
                  (Posix.env "/cfg" Examples.files_ab) info
                  "b.json" "/cfg" "/cfg/b.json" (object [leaf "y" "2"])
                  (new_loader empty_ptree)
                  eq_refl eq_refl eq_refl eq_refl eq_refl eq_refl)).
Defined.

(** C8 as stated fails, on two files without include key.  [s.json] is the
    JSON text ["hello"]: the parser's tree carries the string as the data
    of its root, the loaded tree has empty data.  [d.json] is [{"a.b":1}]:
    the parser's tree has one child with key [a.b], the loaded tree has a
    child [a] with a child [b]. *)
Lemma loaded_tree_differs_from_parsed_tree :
  let E := Posix.env "/cfg" Examples.files_shapes in
  (Reader E json "/cfg/s.json" = ReadOk (Node "hello" []) /\
   Load E json "s.json" (new_loader empty_ptree) =
   Returned {| root := Node "" [];
               diagnostic := ["Loading: /cfg/s.json"];
               depth := 1 |} /\
   Node "" [] <> Node "hello" []) /\
  (Reader E json "/cfg/d.json" = ReadOk (Node "" [("a.b", Node "1" [])]) /\
   Load E json "d.json" (new_loader empty_ptree) =
   Returned {| root := Node "" [("a", Node "" [("b", Node "1" [])])];
               diagnostic := ["Loading: /cfg/d.json"];
               depth := 1 |} /\
   Node "" [("a", Node "" [("b", Node "1" [])])]
   <> Node "" [("a.b", Node "1" [])]).
Proof.
  repeat split; try (vm_compute; reflexivity); discriminate.
Qed.

(* ===================================================================== *)
(** ** The counter counts requests, not nesting (C10) *)
(* ===================================================================== *)

Section Requests.

Variable E : Env.
Variable T : PtreeFileFormat.

Lemma is_step_not_found eff : is_step (not_found_line eff) = true.
Proof. unfold is_step, not_found_line. simpl. destruct eff; reflexivity. Qed.

Lemma is_step_loading eff : is_step (loading_line eff) = true.
Proof. unfold is_step, loading_line. simpl. destruct eff; reflexivity. Qed.

Lemma requests_log x st :
  requests (log x st) = requests st - (if is_step x then 1 else 0).
Proof.
  unfold requests, log, count. simpl. rewrite filter_app, length_app. simpl.
  destruct (is_step x); simpl; lia.
Qed.

Lemma merge_children_requests load kvs :
  (forall q s s', load q s = Returned s' -> requests s' = requests s) ->
  forall st st',
    merge_children load kvs st = Returned st' -> requests st' = requests st.
Proof.
  intros Hload. induction kvs as [|[k v] r IH]; intros st st' H; simpl in H.
  - inversion H; reflexivity.
  - destruct (String.eqb k includeKey).
    + destruct (load (data v) _) as [st2|w st2|] eqn:Hl; try discriminate.
      rewrite (IH _ _ H), (Hload _ _ _ Hl). reflexivity.
    + rewrite (IH _ _ H). reflexivity.
Qed.

Lemma Load_rec_requests fuel : forall p par st st',
  Load_rec E T fuel p par st = Returned st' -> requests st' = requests st.
Proof.
  induction fuel as [|n IH]; intros p par st st' H; [discriminate|].
  rewrite Load_rec_S in H. cbv zeta in H.
  destruct (depth st + 1 >? depthLimit).
  { inversion H; subst. rewrite requests_log. unfold requests. simpl. lia. }
  destruct (effective_path E p par) as [eff|w]; [|discriminate].
  destruct (fs_exists E eff) as [[|]|w]; [| |discriminate].
  2:{ inversion H; subst. rewrite requests_log, is_step_not_found.
      unfold requests. simpl. lia. }
  destruct (Reader E T eff) as [subtree|w].
  2:{ inversion H; subst. rewrite !requests_log, is_step_loading.
      unfold requests. simpl. lia. }
  apply merge_children_requests in H; [|intros q s s'; apply IH].
  rewrite H, requests_log, is_step_loading. unfold requests. simpl. lia.
Qed.

Lemma Load_requests p st st' :
  Load E T p st = Returned st' ->
  depth st' = count is_step (diagnostic st') - count is_step (diagnostic st).
Proof.
  rewrite Load_initial. destruct (initial_parent E p); [|discriminate].
  intros H. apply Load_rec_requests in H. unfold requests in H.
  simpl in H. lia.
Qed.

Lemma Load_loading_bound p st st' :
  final_state (Load E T p st) = Some st' ->
  count is_loading (diagnostic st') - count is_loading (diagnostic st) <= 20.
Proof.
  rewrite Load_initial. destruct (initial_parent E p).
  - intros H. apply Load_rec_loading_bound in H. simpl in H. lia.
  - intros H. inversion H; subst. simpl. lia.
Qed.

End Requests.

(** C10.  The counter belongs to the session, not to a branch:
    - every step leaves it at least one higher than it found it, however
      the step ends, so it is never lowered when a nested call returns;
    - when [Load] returns, the counter equals the number of lines the
      session streamed for requests (a [Loading], [Path not found] or loop
      line each), over all branches;
    - a session streams at most 20 [Loading] lines: at most 20 files are
      parsed;
    - once 20 requests were made, the next one, from whatever directory and
      at whatever nesting, streams the loop line and is abandoned with the
      tree untouched;
    - example: [root.json] includes the 20 files [f1.json] ... [f20.json],
      which include nothing.  Every include sits at nesting depth 2, yet
      only the first 19 are parsed: [f20.json], the 21st file requested, is
      met with the loop line. *)
Theorem depth_counts_requests_of_the_session :
  (forall E T,
      (forall fuel p par st st',
          final_state (Load_rec E T fuel p par st) = Some st' ->
          depth st + 1 <= depth st') /\
      (forall p st st',
          Load E T p st = Returned st' ->
          depth st' =
          count is_step (diagnostic st') - count is_step (diagnostic st)) /\
      (forall p st,
          exists st',
            final_state (Load E T p st) = Some st' /\
            count is_loading (diagnostic st')
            - count is_loading (diagnostic st) <= 20) /\
      (forall n p par st,
          depth st = 20 ->
          Load_rec E T (S n) p par st =
          Returned {| root := root st;
                      diagnostic := diagnostic st ++ [loop_line];
                      depth := 21 |})) /\
  Load (Posix.env "/cfg" (Examples.files_fan 20)) json "root.json"
    (new_loader empty_ptree)
  = Returned
      {| root :=
           object
             (flat_map
                (fun i => [leaf includeKey (Examples.chain_name i);
                           leaf "k" (Examples.show i)]) (seq 1 19)
              ++ [leaf includeKey (Examples.chain_name 20)]);
         diagnostic :=
           "Loading: /cfg/root.json"
           :: map (fun i => loading_line ("/cfg/" ++ Examples.chain_name i))
                (seq 1 19)
           ++ [loop_line];
         depth := 21 |}.
Proof.
  split; [|vm_compute; reflexivity].
  intros E T. repeat split.
  - intros fuel p par st st'. apply Load_rec_depth_incr.
  - intros p st st'. apply Load_requests.
  - intros p st. destruct (Load_final_state E T p st) as [st' H].
    exists st'. split; [assumption|].
    apply (Load_loading_bound E T p); assumption.
  - intros n p par st Hd. rewrite Load_rec_limit by lia.
    unfold log, set_depth. simpl. rewrite Hd. reflexivity.
Qed.

Lemma depth_counts_requests_of_the_session_witness :
  let E := Posix.env "/cfg" (Examples.files_fan 20) in
  let st := {| root := empty_ptree; diagnostic := []; depth := 20 |} in
  Load_rec E json 1 "f20.json" "/cfg" st =
  Returned {| root := empty_ptree; diagnostic := [loop_line]; depth := 21 |}.
Proof.
  apply (proj2 (proj2 (proj2
           (proj1 depth_counts_requests_of_the_session
              (Posix.env "/cfg" (Examples.files_fan 20)) json)))
           0%nat "f20.json" "/cfg"
           {| root := empty_ptree; diagnostic := []; depth := 20 |}).
  reflexivity.
Defined.

(* ===================================================================== *)
(** ** Sessions below the limit: includes are expanded in place *)
(* ===================================================================== *)

Section Expansion.

Variable E : Env.
Variable T : PtreeFileFormat.

Lemma plan_body_expansion :
  (forall pl fuel p par st,
      plan_ok E T p par pl ->
      depth st + Z.of_nat (plan_requests pl) <= 20 ->
      (plan_requests pl <= fuel)%nat ->
      Load_rec E T fuel p par st =
      Returned {| root := add_children (plan_pairs pl) (root st);
                  diagnostic := diagnostic st ++ plan_log pl;
                  depth := depth st + Z.of_nat (plan_requests pl) |}) /\
  (forall b n dir st,
      body_ok E T dir b ->
      depth st + Z.of_nat (body_requests b) <= 20 ->
      (body_requests b <= n)%nat ->
      merge_children (fun q s => Load_rec E T n q dir s)
        (body_children b) st =
      Returned {| root := add_children (body_pairs b) (root st);
                  diagnostic := diagnostic st ++ body_log b;
                  depth := depth st + Z.of_nat (body_requests b) |}).
Proof.
  apply plan_body_ind;
    cbn [plan_ok body_ok plan_requests body_requests plan_pairs body_pairs
           plan_log body_log body_children].
  - intros eff [|n] p par st (He & Hx) Hd Hf; [lia|].
    rewrite (Load_rec_not_found E T n p par st eff) by (auto; lia).
    reflexivity.
  - intros eff what [|n] p par st (He & Hx & Hr) Hd Hf; [lia|].
    rewrite (Load_rec_parse_error E T n p par st eff what) by (auto; lia).
    unfold log, set_depth. simpl. rewrite <- app_assoc. reflexivity.
  - intros eff d b IHb [|n] p par st (He & Hx & Hr & Hb) Hd Hf; [lia|].
    rewrite (Load_rec_parsed E T n p par st eff _ ltac:(lia) He Hx Hr).
    cbn [children].
    rewrite IHb; auto; [|cbn [log set_depth depth]; lia|lia].
    unfold log, set_depth. cbn [root diagnostic depth].
    rewrite <- app_assoc. cbn [app].
    replace (depth st + 1 + Z.of_nat (body_requests b))
      with (depth st + Z.of_nat (S (body_requests b))) by lia.
    reflexivity.
  - intros n dir st _ _ _. cbn [merge_children add_children fold_left].
    rewrite app_nil_r, Z.add_0_r. destruct st; reflexivity.
  - intros k v rest IHr n dir st (Hk & Hb) Hd Hf.
    cbn [merge_children]. rewrite Hk. cbv zeta.
    rewrite IHr; auto.
  - intros v sub IHs rest IHr n dir st (Hs & Hb) Hd Hf.
    rewrite merge_children_include.
    rewrite IHs; auto; [|cbn [set_root depth]; lia|lia].
    rewrite IHr; auto; [|cbn [set_root depth]; lia|lia].
    cbn [root diagnostic depth set_root].
    rewrite <- add_child_includeKey.
    change (add_children (plan_pairs sub)
              (add_child includeKey v (root st)))
      with (add_children ((includeKey, v) :: plan_pairs sub) (root st)).
    rewrite <- add_children_app, <- app_assoc.
    replace (depth st + Z.of_nat (plan_requests sub)
             + Z.of_nat (body_requests rest))
      with (depth st
            + Z.of_nat (plan_requests sub + body_requests rest)) by lia.
    reflexivity.
Qed.

End Expansion.

(** X1.  A session that makes at most 20 requests is fully described by
    what each request turns out to be.  If the requests unfold as the plan
    [pl] says (missing files, files the parser rejects, parsed files with
    their include lines), [Load] returns; the destination tree has
    received, by [add_child] and in this order, every child of every parsed
    file, the content of an included file standing right after its include
    line and before the later siblings; the log holds one [Path not found]
    line per missing file, [Loading] and [Error] per rejected file, and
    [Loading] per parsed file, in request order; the counter holds the
    number of requests. *)
Theorem includes_expand_in_place (E : Env) (T : PtreeFileFormat)
        (p par : string) (pl : plan) (st : PtreeLoader) :
  initial_parent E p = FsOk par ->
  plan_ok E T p par pl ->
  (plan_requests pl <= 20)%nat ->
  Load E T p st =
  Returned {| root := add_children (plan_pairs pl) (root st);
              diagnostic := diagnostic st ++ plan_log pl;
              depth := Z.of_nat (plan_requests pl) |}.
Proof.
  intros Hpar Hok Hreq. rewrite Load_initial, Hpar.
  rewrite (proj1 (plan_body_expansion E T) pl enough_fuel p par
             (set_depth 0 st) Hok).
  - reflexivity.
  - cbn [set_depth depth]. lia.
  - unfold enough_fuel. lia.
Qed.

Lemma includes_expand_in_place_witness :
  Load (Posix.env "/cfg" MoreExamples.files_mixed) json "a.json"
    (new_loader empty_ptree)
  = Returned
      {| root :=
           add_children
             [leaf "x" "1"; leaf includeKey "missing.json";
              leaf includeKey "bad.json"; leaf includeKey "b.json";
              leaf "y" "2"; leaf "w" "4"] empty_ptree;
         diagnostic :=
           [] ++ ["Loading: /cfg/a.json";
                  "Path not found: /cfg/missing.json";
                  "Loading: /cfg/bad.json";
                  "Error: /cfg/bad.json(1): expected value";
                  "Loading: /cfg/b.json"];
         depth := 4 |}.
Proof.
  apply (includes_expand_in_place
           (Posix.env "/cfg" MoreExamples.files_mixed) json "a.json" "/cfg"
           MoreExamples.plan_mixed (new_loader empty_ptree)).
  - reflexivity.
  - vm_compute. repeat split.
  - vm_compute. lia.
Defined.

(* ===================================================================== *)
(** ** Once the limit is reached *)
(* ===================================================================== *)

Section Saturation.

Variable E : Env.
Variable T : PtreeFileFormat.

Lemma count_includes_cons k v kvs :
  count_includes ((k, v) :: kvs) =
  ((if String.eqb k includeKey then 1 else 0) + count_includes kvs)%nat.
Proof.
  unfold count_includes. simpl. destruct (String.eqb k includeKey); reflexivity.
Qed.

Lemma merge_children_saturated n dir kvs : forall st,
  20 <= depth st ->
  merge_children (fun q s => Load_rec E T (S n) q dir s) kvs st =
  Returned {| root := add_children kvs (root st);
              diagnostic :=
                diagnostic st ++ repeat loop_line (count_includes kvs);
              depth := depth st + Z.of_nat (count_includes kvs) |}.
Proof.
  induction kvs as [|[k v] r IH]; intros st Hd.
  - simpl. rewrite app_nil_r, Z.add_0_r. destruct st; reflexivity.
  - cbn [merge_children]. cbv zeta. rewrite count_includes_cons.
    destruct (String.eqb k includeKey).
    + rewrite Load_rec_limit by (cbn [set_root depth]; lia).
      rewrite IH by (simpl; lia).
      unfold log, set_depth, set_root. cbn [root diagnostic depth].
      rewrite <- app_assoc. cbn [app repeat Nat.add].
      replace (depth st + 1 + Z.of_nat (count_includes r))
        with (depth st + Z.of_nat (S (count_includes r))) by lia.
      reflexivity.
    + rewrite IH by (simpl; lia). reflexivity.
Qed.

End Saturation.

(** X2.  The limit stops requests, not the merge.  When a file is parsed
    as the 20th request of a session, all its children are still merged, in
    order; each of its include lines costs one loop line and one increment
    of the counter, and no path is resolved and no file looked at for it.
    The same holds for the children that remain to be merged in any file
    once the counter has reached 20. *)
Theorem limit_stops_requests_not_the_merge (E : Env) (T : PtreeFileFormat) :
  (forall n p par eff d kvs st,
      depth st = 19 ->
      effective_path E p par = FsOk eff ->
      fs_exists E eff = FsOk true ->
      Reader E T eff = ReadOk (Node d kvs) ->
      Load_rec E T (S (S n)) p par st =
      Returned {| root := add_children kvs (root st);
                  diagnostic :=
                    diagnostic st
                    ++ loading_line eff
                       :: repeat loop_line (count_includes kvs);
                  depth := 20 + Z.of_nat (count_includes kvs) |}) /\
  (forall n dir kvs st,
      20 <= depth st ->
      merge_children (fun q s => Load_rec E T (S n) q dir s) kvs st =
      Returned {| root := add_children kvs (root st);
                  diagnostic :=
                    diagnostic st ++ repeat loop_line (count_includes kvs);
                  depth := depth st + Z.of_nat (count_includes kvs) |}).
Proof.
  split.
  - intros n p par eff d kvs st Hd He Hx Hr.
    rewrite (Load_rec_parsed E T _ p par st eff _ ltac:(lia) He Hx Hr).
    cbn [children]. rewrite merge_children_saturated
      by (cbn [log set_depth depth]; lia).
    unfold log, set_depth. cbn [root diagnostic depth].
    rewrite <- app_assoc, Hd. reflexivity.
  - intros. apply merge_children_saturated. assumption.
Qed.

Lemma limit_stops_requests_not_the_merge_witness :
  let E := Posix.env "/cfg" MoreExamples.files_mixed in
  let st := {| root := empty_ptree; diagnostic := []; depth := 19 |} in
  Load_rec E json 2 "a.json" "/cfg" st =
  Returned
    {| root :=
         add_children
           [leaf "x" "1"; leaf includeKey "missing.json";
            leaf includeKey "bad.json"; leaf includeKey "b.json";
            leaf "w" "4"] empty_ptree;
       diagnostic :=
         [] ++ loading_line "/cfg/a.json" :: repeat loop_line 3;
       depth := 20 + 3 |}.
Proof.
  apply (proj1 (limit_stops_requests_not_the_merge
                  (Posix.env "/cfg" MoreExamples.files_mixed) json)
           0%nat "a.json" "/cfg" "/cfg/a.json" ""
           [leaf "x" "1"; leaf includeKey "missing.json";
            leaf includeKey "bad.json"; leaf includeKey "b.json";
            leaf "w" "4"]
           {| root := empty_ptree; diagnostic := []; depth := 19 |});
    reflexivity.
Defined.

(* ===================================================================== *)
(** ** What a step depends on *)
(* ===================================================================== *)

Section Dependence.

Variable T : PtreeFileFormat.
Variables E E' : Env.
Hypothesis same : same_answers T E E'.

Lemma merge_children_ext load load' kvs :
  (forall q s, load q s = load' q s) ->
  forall st, merge_children load kvs st = merge_children load' kvs st.
Proof.
  intros Hl. induction kvs as [|[k v] r IH]; intros st; simpl; auto.
  destruct (String.eqb k includeKey); auto.
  rewrite Hl. destruct (load' (data v) _); auto.
Qed.

Lemma Load_rec_same_answers fuel : forall p par st,
  Load_rec E T fuel p par st = Load_rec E' T fuel p par st.
Proof.
  destruct same as (Habs & Happ & Hpp & Hwc & Hex & Hrd).
  induction fuel as [|n IH]; intros p par st; [reflexivity|].
  rewrite !Load_rec_S. cbv zeta.
  destruct (depth st + 1 >? depthLimit); [reflexivity|].
  unfold effective_path, joined. rewrite <- Habs, <- Happ, <- Hwc.
  destruct (weakly_canonical E _) as [eff|w]; [|reflexivity].
  rewrite <- Hex. destruct (fs_exists E eff) as [[|]|w]; try reflexivity.
  rewrite <- Hrd. destruct (Reader E T eff) as [subtree|w]; [|reflexivity].
  rewrite <- Hpp. apply merge_children_ext. intros q s. apply IH.
Qed.

End Dependence.

(** X3.  For an absolute root path the working directory is never asked
    for and plays no part in the whole session, includes at every depth
    included: with any other working directory, even one whose query
    fails, [Load] ends in the same way with the same tree, log and
    counter. *)
Theorem absolute_root_ignores_working_directory
        (E : Env) (T : PtreeFileFormat) (cwd : fs_result string)
        (p : string) (st : PtreeLoader) :
  is_absolute E p = true ->
  Load (with_current_path cwd E) T p st = Load E T p st.
Proof.
  intros Habs. unfold Load. cbn [with_current_path is_absolute].
  rewrite Habs. cbn [negb].
  apply Load_rec_same_answers. repeat split.
Qed.

Lemma absolute_root_ignores_working_directory_witness :
  Load (with_current_path (FsError "getcwd: No such file or directory")
          (Posix.env "/cfg" Examples.files_dirs))
    json "/cfg/a.json" (new_loader empty_ptree)
  = Load (Posix.env "/cfg" Examples.files_dirs)
      json "/cfg/a.json" (new_loader empty_ptree).
Proof.
  apply (absolute_root_ignores_working_directory
           (Posix.env "/cfg" Examples.files_dirs) json).
  reflexivity.
Defined.

(** X4.  The format is bound once: a loader for one format calls the parser
    of that format only.  Replacing the parsers of the other two formats by
    anything at all changes nothing in what [Load] does. *)
Theorem only_the_bound_parser_is_called
        (E : Env) (rx rj ri : string -> read_result)
        (p : string) (st : PtreeLoader) :
  Load (with_parsers (read_xml E) rj ri E) xml p st = Load E xml p st /\
  Load (with_parsers rx (read_json E) ri E) json p st = Load E json p st /\
  Load (with_parsers rx rj (read_info E) E) info p st = Load E info p st.
Proof.
  assert (H : forall T E',
             same_answers T E' E -> current_path E' = current_path E ->
             Load E' T p st = Load E T p st).
  { intros T E' Hsame Hcwd. unfold Load. rewrite Hcwd.
    destruct Hsame as (Habs & Hrest). rewrite Habs.
    destruct (negb (is_absolute E p)).
    - destruct (current_path E); [|reflexivity].
      apply Load_rec_same_answers. split; assumption.
    - apply Load_rec_same_answers. split; assumption. }
  split; [|split]; apply H; try reflexivity;
    unfold same_answers; cbn [with_parsers is_absolute path_append
      parent_path weakly_canonical fs_exists Reader read_xml read_json
      read_info]; auto 10.
Qed.

(* ===================================================================== *)
(** ** Calls in sequence, cycles, exceptions *)
(* ===================================================================== *)

Section Sequences.

Variable E : Env.
Variable T : PtreeFileFormat.

Lemma Load_file_without_include p par eff t st :
  initial_parent E p = FsOk par ->
  effective_path E p par = FsOk eff ->
  fs_exists E eff = FsOk true ->
  Reader E T eff = ReadOk t ->
  no_include (children t) = true ->
  Load E T p st =
  Returned {| root := add_children (children t) (root st);
              diagnostic := diagnostic st ++ [loading_line eff];
              depth := 1 |}.
Proof.
  intros Hpar He Hx Hr Hno. rewrite Load_initial, Hpar.
  change enough_fuel with (S 20).
  rewrite (Load_rec_parsed E T _ p par _ eff t); auto;
    [|cbn [set_depth depth]; lia].
  rewrite merge_children_no_include by assumption. reflexivity.
Qed.

Lemma is_chain_repeat l p par n :
  effective_path E p par = FsOk (link_path l) ->
  fs_exists E (link_path l) = FsOk true ->
  (exists d, Reader E T (link_path l) =
             ReadOk (Node d (link_pre l
                             ++ (includeKey, link_inc l) :: link_post l))) ->
  no_include (link_pre l) = true ->
  no_include (link_post l) = true ->
  effective_path E (data (link_inc l)) (parent_path E (link_path l))
  = FsOk (link_path l) ->
  is_chain E T p par (repeat l n).
Proof.
  intros He Hx Hr Hpre Hpost Hself. revert p par He.
  induction n as [|n IH]; intros p par He; simpl; auto.
  repeat split; auto.
Qed.

End Sequences.

(** X5.  Calls of [Load] on one loader add up.  When two files without
    include line are loaded one after the other, the second call finds the
    tree and the log of the first and extends both: the tree ends up as if
    the children of the first file followed by those of the second had been
    merged in one go, and the log holds both [Loading] lines.  Only the
    counter starts afresh: it is 1 after either call.  The two files may
    be the same file, whose children are then there twice. *)
Theorem successive_loads_accumulate
        (E : Env) (T : PtreeFileFormat)
        (p par eff : string) (t : ptree) (q qpar qeff : string) (u : ptree)
        (st : PtreeLoader) :
  initial_parent E p = FsOk par ->
  effective_path E p par = FsOk eff ->
  fs_exists E eff = FsOk true ->
  Reader E T eff = ReadOk t ->
  no_include (children t) = true ->
  initial_parent E q = FsOk qpar ->
  effective_path E q qpar = FsOk qeff ->
  fs_exists E qeff = FsOk true ->
  Reader E T qeff = ReadOk u ->
  no_include (children u) = true ->
  Load_then E T p q st =
  Returned {| root := add_children (children t ++ children u) (root st);
              diagnostic :=
                diagnostic st ++ [loading_line eff; loading_line qeff];
              depth := 1 |}.
Proof.
  intros Hpar He Hx Hr Hno Hqpar Hqe Hqx Hqr Hqno. unfold Load_then.
  rewrite (Load_file_without_include E T p par eff t) by assumption.
  rewrite (Load_file_without_include E T q qpar qeff u) by assumption.
  cbn [root diagnostic]. rewrite add_children_app, <- app_assoc.
  reflexivity.
Qed.

Lemma successive_loads_accumulate_witness :
  Load_then (Posix.env "/cfg" Examples.files_ab) json "b.json" "b.json"
    (new_loader empty_ptree)
  = Returned
      {| root := add_children ([leaf "y" "2"] ++ [leaf "y" "2"]) empty_ptree;
         diagnostic :=
           [] ++ [loading_line "/cfg/b.json"; loading_line "/cfg/b.json"];
         depth := 1 |}.
Proof.
  apply (successive_loads_accumulate
           (Posix.env "/cfg" Examples.files_ab) json
           "b.json" "/cfg" "/cfg/b.json" (object [leaf "y" "2"])
           "b.json" "/cfg" "/cfg/b.json" (object [leaf "y" "2"])
           (new_loader empty_ptree));
    reflexivity.
Defined.

(** X6.  A file that includes itself is merged exactly 20 times.  If the
    one include line of the root file resolves, from the file's own
    directory, to the file itself, [Load] returns with 20 [Loading] lines
    for it and one loop line; the tree has received 20 nested copies of
    the file's children: at each level the children before the include
    line, the include line, the next copy, and the children after it. *)
Theorem self_including_file_is_merged_twenty_times
        (E : Env) (T : PtreeFileFormat) (p par eff d : string)
        (pre post : list (string * ptree)) (inc : ptree) (st : PtreeLoader) :
  initial_parent E p = FsOk par ->
  effective_path E p par = FsOk eff ->
  fs_exists E eff = FsOk true ->
  Reader E T eff = ReadOk (Node d (pre ++ (includeKey, inc) :: post)) ->
  no_include pre = true ->
  no_include post = true ->
  effective_path E (data inc) (parent_path E eff) = FsOk eff ->
  Load E T p st =
  Returned
    {| root :=
         add_children
           (chain_merge
              (repeat {| link_path := eff; link_pre := pre;
                         link_inc := inc; link_post := post |} 20))
           (root st);
       diagnostic :=
         diagnostic st ++ repeat (loading_line eff) 20 ++ [loop_line];
       depth := 21 |}.
Proof.
  intros Hpar He Hx Hr Hpre Hpost Hself.
  rewrite Load_initial, Hpar.
  set (l := {| link_path := eff; link_pre := pre;
               link_inc := inc; link_post := post |}).
  rewrite (chain_run E T (repeat l 20) enough_fuel p par (set_depth 0 st)).
  - rewrite map_repeat. reflexivity.
  - apply is_chain_repeat; subst l; cbn [link_path link_pre link_inc
      link_post]; eauto.
  - rewrite repeat_length. cbn [set_depth depth]. lia.
  - rewrite repeat_length. unfold enough_fuel. lia.
Qed.

Lemma self_including_file_is_merged_twenty_times_witness :
  Load (Posix.env "/cfg" MoreExamples.files_loop) json "loop.json"
    (new_loader empty_ptree)
  = Returned
      {| root :=
           add_children
             (chain_merge
                (repeat {| link_path := "/cfg/loop.json";
                           link_pre := [leaf "a" "1"];
                           link_inc := Node "loop.json" [];
                           link_post := [leaf "b" "2"] |} 20))
             empty_ptree;
         diagnostic :=
           [] ++ repeat (loading_line "/cfg/loop.json") 20 ++ [loop_line];
         depth := 21 |}.
Proof.
  apply (self_including_file_is_merged_twenty_times
           (Posix.env "/cfg" MoreExamples.files_loop) json
           "loop.json" "/cfg" "/cfg/loop.json" ""
           [leaf "a" "1"] [leaf "b" "2"] (Node "loop.json" [])
           (new_loader empty_ptree));
    reflexivity.
Defined.

(** X7.  An exception in an included request abandons everything that was
    still to come.  If the first include line of a parsed file leads to a
    path whose canonicalisation, or whose existence check, throws, the
    exception leaves the including step too: the children before the
    include line and the include line itself are in the tree, the children
    after it are not merged, the log ends with the [Loading] line of the
    including file (the failed request leaves no line), and the counter
    has counted both requests. *)
Theorem exception_abandons_remaining_children
        (E : Env) (T : PtreeFileFormat) (n : nat)
        (p par eff d what : string) (pre post : list (string * ptree))
        (v : ptree) (st : PtreeLoader) :
  depth st < 19 ->
  effective_path E p par = FsOk eff ->
  fs_exists E eff = FsOk true ->
  Reader E T eff = ReadOk (Node d (pre ++ (includeKey, v) :: post)) ->
  no_include pre = true ->
  (effective_path E (data v) (parent_path E eff) = FsError what \/
   exists target,
     effective_path E (data v) (parent_path E eff) = FsOk target /\
     fs_exists E target = FsError what) ->
  Load_rec E T (S (S n)) p par st =
  Raised what
    {| root := push_back includeKey v (add_children pre (root st));
       diagnostic := diagnostic st ++ [loading_line eff];
       depth := depth st + 2 |}.
Proof.
  intros Hd He Hx Hr Hpre Hthrow.
  rewrite (Load_rec_parsed E T _ p par st eff _ ltac:(lia) He Hx Hr).
  cbn [children].
  rewrite merge_children_app, merge_children_no_include by assumption.
  rewrite merge_children_include, Load_rec_S. cbv zeta.
  rewrite within_limit by (cbn [set_root log set_depth depth]; lia).
  destruct Hthrow as [Hw | (target & Ht & Hw)].
  - rewrite Hw. unfold set_depth, set_root, log.
    cbn [root diagnostic depth].
    replace (depth st + 1 + 1) with (depth st + 2) by lia. reflexivity.
  - rewrite Ht, Hw. unfold set_depth, set_root, log.
    cbn [root diagnostic depth].
    replace (depth st + 1 + 1) with (depth st + 2) by lia. reflexivity.
Qed.

Lemma exception_abandons_remaining_children_witness :
  let E :=
    Posix.guarded_env "/cfg"
      [("/cfg/a.json",
        ReadOk (object [leaf "x" "1"; leaf includeKey "/private/x.json";
                        leaf "w" "4"]))] in
  Load_rec E json 2 "a.json" "/cfg" (new_loader empty_ptree) =
  Raised "filesystem error: status: Permission denied [/private/x.json]"
    {| root := push_back includeKey (Node "/private/x.json" [])
                 (add_children [leaf "x" "1"] empty_ptree);
       diagnostic := [] ++ [loading_line "/cfg/a.json"];
       depth := 0 + 2 |}.
Proof.
  apply (exception_abandons_remaining_children
           (Posix.guarded_env "/cfg"
              [("/cfg/a.json",
                ReadOk (object [leaf "x" "1";
                                leaf includeKey "/private/x.json";
                                leaf "w" "4"]))])
           json 0 "a.json" "/cfg" "/cfg/a.json" ""
           "filesystem error: status: Permission denied [/private/x.json]"
           [leaf "x" "1"] [leaf "w" "4"] (Node "/private/x.json" [])
           (new_loader empty_ptree));
    try reflexivity; left; reflexivity.
Defined.

(* ===================================================================== *)
(** ** The example program *)
(* ===================================================================== *)

Section Program.

Variable E : Env.
Variable H : Host.

Lemma string_app_nil_r (a : string) : (a ++ "")%string = a.
Proof. induction a as [|c a IH]; simpl; [|rewrite IH]; reflexivity. Qed.

Lemma main_with_file a0 p more :
  main E H (a0 :: p :: more) =
  match format_of_extension (extension H p) with
  | Some T =>
      match TestPtreeLoader E H T p (banner ++ assuming T)%string with
      | inl out => Exited 0 out
      | inr (what, out) => Uncaught what out
      end
  | None => Exited 0 banner
  end.
Proof. reflexivity. Qed.

Lemma format_of_extension_None ext :
  ext <> ".xml"%string -> ext <> ".json"%string -> ext <> ".info"%string ->
  format_of_extension ext = None.
Proof.
  intros Hx Hj Hi. unfold format_of_extension.
  destruct (String.eqb_spec ext ".xml"); [contradiction|].
  destruct (String.eqb_spec ext ".json"); [contradiction|].
  destruct (String.eqb_spec ext ".info"); [contradiction|].
  reflexivity.
Qed.

End Program.

(** X8.  The example program ends in one of two ways only.  Either [main]
    returns, and then with exit code 0 and an output that begins with the
    banner: no failure to load ever shows in the exit code.  Or the first
    argument has a recognised extension and an exception nobody catches
    ends the process: the file-system error that [Load], from an empty
    tree, let through, or the error the writer of that format threw on the
    tree [Load] had returned. *)
Theorem main_returns_zero_or_ends_on_an_exception
        (E : Env) (H : Host) (argv : list string) :
  (exists rest, main E H argv = Exited 0 (banner ++ rest)%string) \/
  (exists T what pending,
      format_of_extension (extension H (nth 1 argv ""%string)) = Some T /\
      main E H argv = Uncaught what pending /\
      ((exists st,
           Load E T (nth 1 argv ""%string) (new_loader empty_ptree)
           = Raised what st) \/
       (exists st,
           Load E T (nth 1 argv ""%string) (new_loader empty_ptree)
           = Returned st /\
           Writer H T (root st) = WriteError what))).
Proof.
  unfold main. destruct (length argv <? 2)%nat.
  { left. exists usage. reflexivity. }
  destruct (format_of_extension _) as [T|] eqn:Hfmt.
  2:{ left. exists ""%string. rewrite string_app_nil_r. reflexivity. }
  unfold TestPtreeLoader, DumpPtree.
  destruct (Load E T (nth 1 argv ""%string) (new_loader empty_ptree))
    as [st|w st|] eqn:Hload.
  - destruct (Writer H T (root st)) as [text|w] eqn:Hw.
    + left. eexists. rewrite string_app_assoc. reflexivity.
    + right. exists T, w. eexists.
      split; [first [reflexivity | exact Hfmt]|].
      split; [reflexivity|]. right. exists st.
      split; [first [reflexivity | exact Hload]|exact Hw].
  - right. exists T, w. eexists.
    split; [first [reflexivity | exact Hfmt]|].
    split; [reflexivity|]. left. exists st.
    first [reflexivity | exact Hload].
  - exfalso. revert Hload. apply Load_total.
Qed.

(** X9.  Without a file it can load, the program touches nothing.  With
    fewer than two arguments it prints the banner and the usage line (which
    has no newline) and returns 0.  With an extension other than exactly
    [.xml], [.json] or [.info] (the comparison is case-sensitive) it prints
    the banner alone and returns 0; neither the file system nor a parser is
    consulted.  The program name and every argument after the first are
    ignored. *)
Theorem main_without_loadable_argument
        (E : Env) (H : Host) (argv : list string) :
  ((length argv < 2)%nat ->
   main E H argv = Exited 0 (banner ++ usage)%string) /\
  ((2 <= length argv)%nat ->
   extension H (nth 1 argv ""%string) <> ".xml"%string ->
   extension H (nth 1 argv ""%string) <> ".json"%string ->
   extension H (nth 1 argv ""%string) <> ".info"%string ->
   main E H argv = Exited 0 banner) /\
  (forall a0 a0' p more more',
      main E H (a0 :: p :: more) = main E H (a0' :: p :: more')).
Proof.
  split; [|split].
  - intros Hlen. unfold main.
    destruct (Nat.ltb_spec (length argv) 2); [reflexivity|lia].
  - intros Hlen Hx Hj Hi. unfold main.
    destruct (Nat.ltb_spec (length argv) 2); [lia|].
    rewrite format_of_extension_None by assumption. reflexivity.
  - intros. rewrite !main_with_file. reflexivity.
Qed.

Lemma main_without_loadable_argument_witness :
  main (Posix.env "/cfg" Examples.files_ab) MoreExamples.host
    ["PtreeLoader"; "a.JSON"]
  = Exited 0 banner.
Proof.
  apply (proj1 (proj2 (main_without_loadable_argument
                         (Posix.env "/cfg" Examples.files_ab)
                         MoreExamples.host ["PtreeLoader"; "a.JSON"])));
    [simpl; lia | discriminate | discriminate | discriminate].
Defined.

(** X10.  A missing file is reported on standard output and nowhere else.
    If the first argument has a recognised extension and its effective path
    does not exist, the program prints the banner, the line naming the
    assumed format, the diagnostic dump with the single line
    [Path not found: <effective path>] between two delimiter lines, and
    the dump of the empty tree between two delimiter lines, and returns
    0. *)
Theorem main_on_a_missing_file
        (E : Env) (H : Host) (T : PtreeFileFormat)
        (a0 p par eff text : string) (more : list string) :
  format_of_extension (extension H p) = Some T ->
  initial_parent E p = FsOk par ->
  effective_path E p par = FsOk eff ->
  fs_exists E eff = FsOk false ->
  Writer H T empty_ptree = Written text ->
  main E H (a0 :: p :: more) =
  Exited 0
    (banner ++ assuming T
     ++ (delim ++ newline ++ not_found_line eff ++ newline
         ++ delim ++ newline)
     ++ (delim ++ newline ++ text ++ newline ++ delim ++ newline))%string.
Proof.
  intros Hfmt Hpar He Hx Hw.
  rewrite main_with_file, Hfmt. unfold TestPtreeLoader.
  rewrite Load_initial, Hpar. change enough_fuel with (S 20).
  rewrite (Load_rec_not_found E T _ p par _ eff)
    by (auto; cbn [set_depth depth new_loader]; lia).
  unfold DumpPtree. cbn [log set_depth new_loader root].
  rewrite Hw. unfold DumpDiag, diagnostic_str, log, set_depth, new_loader.
  cbn [diagnostic app text_of fold_right].
  rewrite string_app_nil_r, !string_app_assoc. reflexivity.
Qed.

Lemma main_on_a_missing_file_witness :
  main (Posix.env "/cfg" Examples.files_ab) MoreExamples.host
    ["PtreeLoader"; "nothing.info"]
  = Exited 0
      (banner ++ assuming info
       ++ (delim ++ newline ++ not_found_line "/cfg/nothing.info" ++ newline
           ++ delim ++ newline)
       ++ (delim ++ newline ++ "" ++ newline ++ delim ++ newline))%string.
Proof.
  apply (main_on_a_missing_file
           (Posix.env "/cfg" Examples.files_ab) MoreExamples.host info
           "PtreeLoader" "nothing.info" "/cfg" "/cfg/nothing.info" "" []);
    reflexivity.
Defined.





(* ===================================================================== *)
(** ** Reading the log *)
(* ===================================================================== *)

(** X13.  The log tells whether, and how often, the limit cut the session
    short.  However [Load] ends, the number of loop lines it streamed is
    the number of requests beyond the 20th, that is the final value of the
    counter minus 20, or 0 if the counter stayed at or below 20.  So the
    log of a session has no loop line exactly when every request was
    served. *)
Theorem loop_lines_count_abandoned_requests
        (E : Env) (T : PtreeFileFormat) (p : string) (st : PtreeLoader) :
  exists st',
    final_state (Load E T p st) = Some st' /\
    count is_loop (diagnostic st') - count is_loop (diagnostic st)
    = Z.max 0 (depth st' - 20).
Proof.
  destruct (Load_final_state E T p st) as [st' H]. exists st'.
  split; [assumption|].
  apply (Load_invariant E T
           (fun a b =>
              count is_loop (diagnostic b) - Z.max 0 (depth b - 20)
              = count is_loop (diagnostic a) - Z.max 0 (depth a - 20)))
    in H.
  - cbn [set_depth depth diagnostic] in H. lia.
  - reflexivity.
  - intros a b c H1 H2. rewrite H2. exact H1.
  - intros s Hs. cbn [log set_depth depth diagnostic].
    rewrite count_app. unfold count. simpl. lia.
  - intros s Hs. cbn [set_depth depth diagnostic]. lia.
  - intros s eff Hs. cbn [log set_depth depth diagnostic].
    rewrite count_app. unfold count. simpl. lia.
  - intros s eff Hs. cbn [log set_depth depth diagnostic].
    rewrite count_app. unfold count. simpl. lia.
  - intros s w. cbn [log depth diagnostic].
    rewrite count_app. unfold count. simpl. lia.
  - intros s k v. reflexivity.
Qed.
